(** * A shallow embedding of the QOI-style codec of [encode.cpp]

    The development follows the C++ source: [RGBValue] is the pixel
    struct, [QOI_Image] the object holding the 64-slot [index] array, the
    pixel vector [m_RGBBytes] and the byte vector [m_QOIBytes];
    [encode] and [decode] are the two member functions, each written as
    the iteration of its loop body over the local variables of the loop.

    Bytes and channels ([uint8_t]) are integers of [Z], conversions to
    [uint8_t] are written [to_u8]; positions ([size_t]) are [nat].

    The source reads storage it never wrote: the channels of a
    default-constructed [RGBValue], [m_RGBBytes[i]] and [m_QOIBytes[i]]
    at [i >= size()], and [m_RGBBytes.back()] of an empty vector.  The
    record [Uninit] names the content of that storage, so that every
    statement says on which of these values it depends. *)

From Stdlib Require Import ZArith Lia Bool.
From stdpp Require Import base list.

Local Open Scope Z_scope.

(** ** Pixels *)

Definition to_u8 (z : Z) : Z := z mod 256.

Record RGBValue := mkRGB {
  red : Z;
  green : Z;
  blue : Z;
  isNull : bool
}.

(** [RGBValue(uint8_t r, uint8_t g, uint8_t b)]: the arguments are
    converted to [uint8_t], [isNull] is cleared. *)
Definition RGBValue_of (r g b : Z) : RGBValue :=
  mkRGB (to_u8 r) (to_u8 g) (to_u8 b) false.

(** [RGBValue()]: only [isNull] is set; the channels keep what the
    storage held, here [r], [g], [b]. *)
Definition RGBValue_default (r g b : Z) : RGBValue := mkRGB r g b true.

(** [operator==]: the three channels, not [isNull]. *)
Definition RGB_eqb (a b : RGBValue) : bool :=
  ((red a =? red b) && (green a =? green b)) && (blue a =? blue b).

(** [hash()]: [(red*3 + green*5 + blue*7) % 64], returned as [uint8_t]. *)
Definition hash (p : RGBValue) : Z :=
  to_u8 (Z.rem (red p * 3 + green p * 5 + blue p * 7) 64).

(** A pixel as [readBMP] builds it: three bytes and [isNull = false]. *)
Definition valid_pixel (p : RGBValue) : bool :=
  (((0 <=? red p) && (red p <? 256)) &&
   ((0 <=? green p) && (green p <? 256))) &&
  (((0 <=? blue p) && (blue p <? 256)) && negb (isNull p)).

(** ** Storage that is read without having been written *)

Record Uninit := mkUninit {
  (** channels of the local [RGBValue prevPixel;] of [encode] *)
  u_prev : Z * Z * Z;
  (** [m_RGBBytes[i]] for [i >= m_RGBBytes.size()] *)
  u_pixels : nat -> RGBValue;
  (** [m_RGBBytes.back()] while [m_RGBBytes] is empty *)
  u_back : RGBValue;
  (** [m_QOIBytes[i]] for [i >= m_QOIBytes.size()] *)
  u_bytes : nat -> Z;
  (** channels of [index[i]] after [index[i] = RGBValue()] *)
  u_index : nat -> Z * Z * Z
}.

(** ** The object *)

Record QOI_Image := mkImage {
  index : list RGBValue;
  m_RGBBytes : list RGBValue;
  m_QOIBytes : list Z
}.

(** [QOI_Image()]: the 64 slots are set to [RGBValue()]. *)
Definition QOI_Image_new (u : Uninit) : QOI_Image :=
  mkImage
    (fmap (fun i => let '(r, g, b) := u_index u i in RGBValue_default r g b)
          (seq 0 64))
    [] [].

(** [m_RGBBytes[i]], unchecked. *)
Definition pixel_at (u : Uninit) (px : list RGBValue) (i : nat) : RGBValue :=
  match px !! i with
  | Some p => p
  | None => u_pixels u i
  end.

(** [m_QOIBytes[i]], unchecked. *)
Definition byte_at (u : Uninit) (bytes : list Z) (i : nat) : Z :=
  match bytes !! i with
  | Some b => b
  | None => u_bytes u i
  end.

(** [index[h]]; [h] is below 64 wherever the source indexes the array
    (see [hash_lt_64] and [index_op_lt_64]), the other branch repeats a
    default-constructed value. *)
Definition index_at (u : Uninit) (idx : list RGBValue) (h : nat) : RGBValue :=
  match idx !! h with
  | Some p => p
  | None => let '(r, g, b) := u_index u h in RGBValue_default r g b
  end.

(** [m_RGBBytes.back()]. *)
Definition back (u : Uninit) (px : list RGBValue) : RGBValue :=
  match last px with
  | Some p => p
  | None => u_back u
  end.

(** ** [encode] *)

(** Local variables and the fields [encode] writes. *)
Record enc_state := mkEnc {
  e_curIdx : nat;
  e_prevPixel : RGBValue;
  e_index : list RGBValue;
  e_QOIBytes : list Z
}.

(** The byte pushed for a run: [0b11000000 + runLength]. *)
Definition run_opcode (runLength : nat) : Z := to_u8 (192 + Z.of_nat runLength).

(** The byte pushed for a difference: [0b01000000 + ((dr+2)<<4) + ((dg+2)<<2) + (db+2)]. *)
Definition diff_opcode (dr dg db : Z) : Z :=
  to_u8 (64 + Z.shiftl (dr + 2) 4 + Z.shiftl (dg + 2) 2 + (db + 2)).

(** The two bytes pushed for a luma difference. *)
Definition luma_opcode1 (dg : Z) : Z := to_u8 (128 + dg + 32).
Definition luma_opcode2 (dr dg db : Z) : Z :=
  to_u8 (Z.shiftl (dr - dg + 8) 4 + (db - dg + 8)).

Definition diff_fits (dr dg db : Z) : bool :=
  (((-2 <=? dr) && (dr <=? 1)) && ((-2 <=? dg) && (dg <=? 1))) &&
  ((-2 <=? db) && (db <=? 1)).

Definition luma_fits (dr dg db : Z) : bool :=
  (((-32 <=? dg) && (dg <=? 31)) &&
   ((-8 <=? dr - dg) && (dr - dg <=? 7))) &&
  ((-8 <=? db - dg) && (db - dg <=? 7)).

Section Encode.
Variable u : Uninit.
Variable px : list RGBValue.

(** The [do ... while] of the run branch.  [runLength] is a [uint8_t]
    that stops at 62, so it is counted in [nat]; [fuel] bounds the
    number of rounds ([run_scan_fuel] shows that 62 is enough).  The
    third component lists the positions at which the loop condition
    reads [m_RGBBytes]. *)
Fixpoint run_scan (fuel : nat) (prevPixel : RGBValue)
    (runLength curIdx : nat) (reads : list nat) : nat * nat * list nat :=
  match fuel with
  | O => (runLength, curIdx, reads)
  | S fuel' =>
      let runLength := S runLength in
      let curIdx := S curIdx in
      if (62 <=? runLength)%nat then (runLength, curIdx, reads)
      else if RGB_eqb (pixel_at u px curIdx) prevPixel
           then run_scan fuel' prevPixel runLength curIdx (reads ++ [curIdx])
           else (runLength, curIdx, reads ++ [curIdx])
  end.

(** Step 1, entered when the current pixel equals [prevPixel]. *)
Definition encode_run (s : enc_state) : enc_state :=
  let '(runLength, curIdx, _) :=
    run_scan 62 (e_prevPixel s) 0 (e_curIdx s) [] in
  mkEnc curIdx (e_prevPixel s) (e_index s)
        (e_QOIBytes s ++ [run_opcode runLength]).

(** Steps 2 to 4 for the pixel at [curIdx]. *)
Definition encode_pixel (s : enc_state) : enc_state :=
  let cur := pixel_at u px (e_curIdx s) in
  let prevPixel := e_prevPixel s in
  let dr := red cur - red prevPixel in
  let dg := green cur - green prevPixel in
  let db := blue cur - blue prevPixel in
  if diff_fits dr dg db then
    mkEnc (S (e_curIdx s)) cur (e_index s)
          (e_QOIBytes s ++ [diff_opcode dr dg db])
  else if luma_fits dr dg db then
    mkEnc (S (e_curIdx s)) cur (e_index s)
          (e_QOIBytes s ++ [luma_opcode1 dg; luma_opcode2 dr dg db])
  else
    let h := hash cur in
    if isNull (index_at u (e_index s) (Z.to_nat h)) then
      mkEnc (S (e_curIdx s)) cur (<[Z.to_nat h := cur]> (e_index s))
            (e_QOIBytes s ++ [h])
    else if RGB_eqb (index_at u (e_index s) (Z.to_nat h)) cur then
      mkEnc (S (e_curIdx s)) cur (e_index s) (e_QOIBytes s ++ [h])
    else
      mkEnc (S (e_curIdx s)) cur (e_index s)
            (e_QOIBytes s ++ [254; red cur; green cur; blue cur]).

(** One round of the [while]; the boolean is [true] when the round
    leaves the loop by [break]. *)
Definition encode_iter (s : enc_state) : enc_state * bool :=
  if (0 <? e_curIdx s)%nat &&
     RGB_eqb (pixel_at u px (e_curIdx s)) (e_prevPixel s)
  then
    let s1 := encode_run s in
    if (length px <=? e_curIdx s1)%nat then (s1, true)
    else (encode_pixel s1, false)
  else (encode_pixel s, false).

Fixpoint encode_loop (fuel : nat) (s : enc_state) : enc_state :=
  match fuel with
  | O => s
  | S fuel' =>
      if (e_curIdx s <? length px)%nat then
        let '(s', brk) := encode_iter s in
        if brk then s' else encode_loop fuel' s'
      else s
  end.
End Encode.

(** State of [encode] when the loop is entered. *)
Definition encode_init (u : Uninit) (img : QOI_Image) : enc_state :=
  let '(r, g, b) := u_prev u in
  mkEnc 0 (RGBValue_default r g b) (index img) (m_QOIBytes img).

(** [encode()]: every round moves [curIdx] forward, so [length px]
    rounds are enough ([encode_loop_fuel]). *)
Definition encode (u : Uninit) (img : QOI_Image) : QOI_Image :=
  let s := encode_loop u (m_RGBBytes img) (length (m_RGBBytes img))
                       (encode_init u img) in
  mkImage (e_index s) (m_RGBBytes img) (e_QOIBytes s).

(** ** [decode] *)

Record dec_state := mkDec {
  d_curIdx : nat;
  d_RGBBytes : list RGBValue
}.

(** [for (i < run) m_RGBBytes.push_back(m_RGBBytes.back())]. *)
Fixpoint push_run (u : Uninit) (run : nat) (pixels : list RGBValue) : list RGBValue :=
  match run with
  | O => pixels
  | S run' => push_run u run' (pixels ++ [back u pixels])
  end.

Section Decode.
Variable u : Uninit.
Variable idx : list RGBValue.
Variable bytes : list Z.

(** One round of the [while] of [decode]. *)
Definition decode_iter (s : dec_state) : dec_state :=
  let curByte := byte_at u bytes (d_curIdx s) in
  let i := S (d_curIdx s) in
  let pixels := d_RGBBytes s in
  if curByte =? 254 then
    let r := byte_at u bytes i in
    let g := byte_at u bytes (i + 1) in
    let b := byte_at u bytes (i + 2) in
    mkDec (i + 3) (pixels ++ [RGBValue_of r g b])
  else if Z.shiftr curByte 6 =? 0 then
    mkDec i (pixels ++ [index_at u idx (Z.to_nat curByte)])
  else if Z.shiftr curByte 6 =? 1 then
    let dr := Z.land (Z.shiftr curByte 4) 3 - 2 in
    let dg := Z.land (Z.shiftr curByte 2) 3 - 2 in
    let db := Z.land curByte 3 - 2 in
    let p := back u pixels in
    mkDec i (pixels ++ [RGBValue_of (red p + dr) (green p + dg) (blue p + db)])
  else if Z.shiftr curByte 6 =? 2 then
    let b2 := byte_at u bytes i in
    let dg := Z.land curByte 63 - 32 in
    let dr_dg := Z.land (Z.shiftr b2 4) 15 - 8 in
    let db_dg := Z.land b2 15 - 8 in
    let dr := dr_dg + dg in
    let db := db_dg + dg in
    let p := back u pixels in
    mkDec (i + 1)
          (pixels ++ [RGBValue_of (red p + dr) (green p + dg) (blue p + db)])
  else if Z.shiftr curByte 6 =? 3 then
    let run := Z.land curByte 63 in
    mkDec i (push_run u (Z.to_nat run) pixels)
  else mkDec i pixels.

Fixpoint decode_loop (fuel : nat) (s : dec_state) : dec_state :=
  match fuel with
  | O => s
  | S fuel' =>
      if (d_curIdx s <? length bytes)%nat
      then decode_loop fuel' (decode_iter s)
      else s
  end.
End Decode.

(** [decode()]: [m_RGBBytes] is emptied first; [index] is read, never
    written.  Every round consumes at least one byte, so
    [length bytes] rounds are enough ([decode_loop_fuel]). *)
Definition decode (u : Uninit) (img : QOI_Image) : QOI_Image :=
  let s := decode_loop u (index img) (m_QOIBytes img)
                       (length (m_QOIBytes img)) (mkDec 0 []) in
  mkImage (index img) (d_RGBBytes s) (m_QOIBytes img).

(** [readBMP] then [encode] on a new object. *)
Definition encode_pixels (u : Uninit) (pixels : list RGBValue) : QOI_Image :=
  encode u (mkImage (index (QOI_Image_new u)) pixels []).

(** [readQOI] then [decode] on a new object: the decoder of a stream
    that comes from elsewhere. *)
Definition decode_bytes (u : Uninit) (bytes : list Z) : QOI_Image :=
  decode u (mkImage (index (QOI_Image_new u)) [] bytes).

(** Storage that holds zeroes everywhere. *)
Definition zeroed : Uninit :=
  mkUninit (0, 0, 0) (fun _ => mkRGB 0 0 0 false) (mkRGB 0 0 0 false)
           (fun _ => 0) (fun _ => (0, 0, 0)).

(** Storage whose pixel cells all hold the channels [(r, g, b)]. *)
Definition stale (r g b : Z) : Uninit :=
  mkUninit (r, g, b) (fun _ => mkRGB r g b false) (mkRGB r g b false)
           (fun _ => 0) (fun _ => (r, g, b)).

Definition px (r g b : Z) : RGBValue := RGBValue_of r g b.

(** Zeroes, but every cell after the pixel vector holds [(10,20,30)]. *)
Definition past_end_copy : Uninit :=
  mkUninit (0, 0, 0) (fun _ => px 10 20 30) (mkRGB 0 0 0 false)
           (fun _ => 0) (fun _ => (0, 0, 0)).

(** Zeroes, but the local [prevPixel] of [encode] holds [(9,19,29)]. *)
Definition prev_differs : Uninit :=
  mkUninit (9, 19, 29) (fun _ => mkRGB 0 0 0 false) (mkRGB 0 0 0 false)
           (fun _ => 0) (fun _ => (0, 0, 0)).

(** The image of the flat scenario: [(10,20,30)] four times. *)
Definition flat4 : list RGBValue := replicate 4 (px 10 20 30).

(** Number of leading elements of [l] equal to [p]. *)
Fixpoint repeats (p : RGBValue) (l : list RGBValue) : nat :=
  match l with
  | q :: l' => if RGB_eqb q p then S (repeats p l') else O
  | [] => O
  end.

(** Largest number of copies of a pixel that directly follow it. *)
Fixpoint longest_repeat (l : list RGBValue) : nat :=
  match l with
  | p :: l' => Nat.max (repeats p l') (longest_repeat l')
  | [] => O
  end.

(** [c] holds every slot that is set in [idx]. *)
Definition cache_ext (idx c : list RGBValue) : Prop :=
  forall (h : nat) (p : RGBValue),
    idx !! h = Some p -> isNull p = false -> c !! h = Some p.

(** Decoding [out], followed by anything, with a cache that holds the
    set slots of [idx], arrives after [out] with the pixels [pixels]. *)
Definition decodes_to (u : Uninit) (idx : list RGBValue) (out : list Z)
    (pixels : list RGBValue) : Prop :=
  forall (c : list RGBValue) (suffix : list Z),
    cache_ext idx c ->
    exists n : nat,
      decode_loop u c (out ++ suffix) n (mkDec 0 []) = mkDec (length out) pixels.

(** [prevPixel] after [k] pixels of [P]: the pixel before position [k],
    or, at the start, channels that agree with [back()] of the empty
    vector. *)
Definition prev_ok (u : Uninit) (P : list RGBValue) (k : nat) (prev : RGBValue) : Prop :=
  match k with
  | O => red prev = red (u_back u) /\ green prev = green (u_back u) /\
         blue prev = blue (u_back u)
  | S k' => P !! k' = Some prev
  end.

(** What holds of the encoder between two pixels. *)
Definition enc_inv (u : Uninit) (P : list RGBValue) (s : enc_state) : Prop :=
  (e_curIdx s <= length P)%nat /\
  length (e_index s) = 64%nat /\
  prev_ok u P (e_curIdx s) (e_prevPixel s) /\
  decodes_to u (e_index s) (e_QOIBytes s) (take (e_curIdx s) P).

(** The error kinds the specification names; [decode()] returns [void]
    and has no failing path, so its outcome is always the pixel vector. *)
Inductive DecodeError := TruncatedStream | IndexNotPresent | UnexpectedTrailingData.

Definition decode_result (u : Uninit) (img : QOI_Image) : DecodeError + list RGBValue :=
  inr (m_RGBBytes (decode u img)).

(** The bytes pushed so far, counted against the pixels consumed. *)
Definition appended (out0 : list Z) (n : nat) (s : enc_state) : Prop :=
  exists out : list Z,
    e_QOIBytes s = out0 ++ out /\
    (length out <= 4 * Nat.min (e_curIdx s) n)%nat.

(** Slots set in [idx0] are kept, and every set slot comes from [idx0]
    or holds a pixel of [P] at the slot of its hash. *)
Definition cache_inv (idx0 : list RGBValue) (P : list RGBValue) (idx : list RGBValue) : Prop :=
  length idx = length idx0 /\
  cache_ext idx0 idx /\
  (forall (h : nat) (p : RGBValue),
     idx !! h = Some p ->
     idx0 !! h = Some p \/
     (exists i : nat, P !! i = Some p /\ Z.to_nat (hash p) = h)).

(** ** The container: [writeQOI] and [readQOI] *)

(** [endMarker]: seven zero bytes and a one. *)
Definition endMarker : list Z := [0; 0; 0; 0; 0; 0; 0; 1].

(** The magic, ["qoif"]. *)
Definition qoif : list Z := [113; 111; 105; 102].

(** [writeQOI], the bytes put into the file: the magic, the ten bytes
    [hdr] written by the four [file.write(reinterpret_cast<char*>(&f), n)]
    (the first 4, 4, 1 and 1 bytes of the object representations of
    [m_width], [m_height], [m_channels] and [m_colorspace]), every byte
    of [m_QOIBytes], the end marker. *)
Definition writeQOI (hdr : list Z) (img : QOI_Image) : list Z :=
  qoif ++ hdr ++ m_QOIBytes img ++ endMarker.

(** The test [readQOI] makes after each [push_back]: at least eight
    bytes, the seven at [size() - 8 + i] are zero, [back()] is one. *)
Definition ends_with_marker (bytes : list Z) : bool :=
  (8 <=? length bytes)%nat &&
  (forallb (fun i : nat => (bytes !!! (length bytes - 8 + i)%nat) =? 0) (seq 0 7) &&
   ((bytes !!! (length bytes - 1)%nat) =? 1)).

(** The [while (true)] of [readQOI] over the bytes [file.get()] still
    has to deliver; the empty stream is [EOF]. *)
Fixpoint readQOI_loop (stream : list Z) (bytes : list Z) : list Z :=
  match stream with
  | [] => bytes
  | next :: stream' =>
      let bytes := bytes ++ [to_u8 next] in
      if ends_with_marker bytes then take (length bytes - 8) bytes
      else readQOI_loop stream' bytes
  end.

(** [readQOI] on a file that opened: [m_QOIBytes] is emptied, the magic
    compared, ten header bytes read, and the loop run on the rest.  A
    file of fewer than 14 bytes, on which the header reads fail, is left
    out: the result is [None]. *)
Definition readQOI (img : QOI_Image) (file : list Z) : option QOI_Image :=
  if (length file <? 14)%nat then None
  else if bool_decide (take 4 file = qoif)
       then Some (mkImage (index img) (m_RGBBytes img)
                          (readQOI_loop (drop 14 file) []))
       else Some (mkImage (index img) (m_RGBBytes img) []).

(** No prefix of [l] shorter than [l] passes the marker test. *)
Definition no_marker_before_end (l : list Z) : bool :=
  forallb (fun j : nat => negb (ends_with_marker (take j l))) (seq 0 (length l)).

(** Every element is a byte. *)
Definition all_bytes (l : list Z) : bool :=
  forallb (fun b : Z => (0 <=? b) && (b <? 256)) l.

(** Number of zero bytes at the front of [l], and at the end of [l]. *)
Fixpoint leading_zeros (l : list Z) : nat :=
  match l with
  | x :: l' => if x =? 0 then S (leading_zeros l') else O
  | [] => O
  end.

Definition trailing_zeros (l : list Z) : nat := leading_zeros (rev l).

(** No prefix of [l], [l] included, passes the marker test. *)
Definition marker_free (l : list Z) : Prop :=
  forall j : nat, ends_with_marker (take j l) = false.

(** What holds of the bytes [encode] has pushed: they are bytes, no
    prefix passes the marker test, and they end in at most three zero
    bytes, or in at most four when slot 0 holds the previous pixel. *)
Definition out_inv (s : enc_state) : Prop :=
  all_bytes (e_QOIBytes s) = true /\
  marker_free (e_QOIBytes s) /\
  length (e_index s) = 64%nat /\
  ((trailing_zeros (e_QOIBytes s) <= 3)%nat \/
   ((trailing_zeros (e_QOIBytes s) <= 4)%nat /\
    exists q : RGBValue,
      e_index s !! 0%nat = Some q /\ isNull q = false /\
      RGB_eqb q (e_prevPixel s) = true)).

(** ** The bitmap file: [writeBMP] and [readBMP] *)

Definition to_u32 (z : Z) : Z := z mod 4294967296.

(** Conversion of a [uint32_t] to [int]. *)
Definition to_i32 (z : Z) : Z :=
  if to_u32 z <? 2147483648 then to_u32 z else to_u32 z - 4294967296.

(** [(m_width * 3 + 3) & (~3)], computed in [uint32_t]. *)
Definition rowPadded (m_width : Z) : Z :=
  Z.land (to_u32 (to_u32 (m_width * 3) + 3)) (to_u32 (Z.lnot 3)).

(** The 54 bytes of [header] after the twelve assignments of
    [writeBMP]; [fileSize] is [54 + rowPadded * m_height] in [uint32_t]. *)
Definition bmp_header (m_width m_height : Z) : list Z :=
  let fileSize := to_u32 (54 + to_u32 (rowPadded m_width * m_height)) in
  let header :=
    [66; 77;  0; 0; 0; 0;  0; 0; 0; 0;  54; 0; 0; 0;  40; 0; 0; 0;
     0; 0; 0; 0;  0; 0; 0; 0;  1; 0;  24; 0;  0; 0; 0; 0;  0; 0; 0; 0;
     0; 0; 0; 0;  0; 0; 0; 0;  0; 0; 0; 0;  0; 0; 0; 0] in
  let header := <[2%nat := to_u8 fileSize]> header in
  let header := <[3%nat := to_u8 (Z.shiftr fileSize 8)]> header in
  let header := <[4%nat := to_u8 (Z.shiftr fileSize 16)]> header in
  let header := <[5%nat := to_u8 (Z.shiftr fileSize 24)]> header in
  let header := <[18%nat := to_u8 m_width]> header in
  let header := <[19%nat := to_u8 (Z.shiftr m_width 8)]> header in
  let header := <[20%nat := to_u8 (Z.shiftr m_width 16)]> header in
  let header := <[21%nat := to_u8 (Z.shiftr m_width 24)]> header in
  let header := <[22%nat := to_u8 m_height]> header in
  let header := <[23%nat := to_u8 (Z.shiftr m_height 8)]> header in
  let header := <[24%nat := to_u8 (Z.shiftr m_height 16)]> header in
  <[25%nat := to_u8 (Z.shiftr m_height 24)]> header.

(** [row[x*3+0] = px.blue; row[x*3+1] = px.green; row[x*3+2] = px.red],
    the positions computed in [uint32_t]. *)
Definition bmp_set_pixel (row : list Z) (x : Z) (p : RGBValue) : list Z :=
  <[Z.to_nat (to_u32 (to_u32 (x * 3) + 2)) := red p]>
    (<[Z.to_nat (to_u32 (to_u32 (x * 3) + 1)) := green p]>
       (<[Z.to_nat (to_u32 (to_u32 (x * 3) + 0)) := blue p]> row)).

(** The inner [for] of [writeBMP] for the row [y]: the pixel for column
    [x] is [m_RGBBytes[y * m_width + (m_width - x - 1)]]. *)
Definition bmp_fill_row (u : Uninit) (pixels : list RGBValue) (m_width y : Z)
    (row : list Z) : list Z :=
  foldl (fun (row : list Z) (i : nat) =>
           let x := Z.of_nat i in
           bmp_set_pixel row x
             (pixel_at u pixels
                (Z.to_nat (to_u32 (to_u32 (y * m_width) +
                                   to_u32 (to_u32 (m_width - x) - 1))))))
        row (seq 0 (Z.to_nat m_width)).

(** The outer [for] of [writeBMP], [y] running from [n - 1] down to 0;
    each round writes [rowPadded] bytes of the one [row] buffer. *)
Fixpoint bmp_rows (u : Uninit) (pixels : list RGBValue) (m_width : Z) (n : nat)
    (row : list Z) : list Z :=
  match n with
  | O => []
  | S y =>
      let row := bmp_fill_row u pixels m_width (Z.of_nat y) row in
      take (Z.to_nat (rowPadded m_width)) row ++ bmp_rows u pixels m_width y row
  end.

(** [writeBMP], the bytes put into the file; [y] starts at
    [(int)(m_height - 1)]. *)
Definition writeBMP (u : Uninit) (m_width m_height : Z) (img : QOI_Image) : list Z :=
  bmp_header m_width m_height ++
  bmp_rows u (m_RGBBytes img) m_width
           (Z.to_nat (to_i32 (to_u32 (m_height - 1)) + 1))
           (replicate (Z.to_nat (rowPadded m_width)) 0).

(** [file.read(row.data(), rowPadded)]: the bytes that are left, at
    most [n], overwrite the front of [row]. *)
Definition bmp_read_row (n : nat) (stream row : list Z) : list Z * list Z :=
  (take n stream ++ drop (length (take n stream)) row, drop n stream).

(** The inner [for] of [readBMP]: one pixel from three bytes of [row]. *)
Definition bmp_row_pixels (m_width : Z) (row : list Z) (pixels : list RGBValue) :
    list RGBValue :=
  foldl (fun (pixels : list RGBValue) (i : nat) =>
           let x := Z.of_nat i in
           let b := row !!! Z.to_nat (x * 3) in
           let g := row !!! Z.to_nat (x * 3 + 1) in
           let r := row !!! Z.to_nat (x * 3 + 2) in
           pixels ++ [RGBValue_of r g b])
        pixels (seq 0 (Z.to_nat m_width)).

(** The outer [for] of [readBMP], [n] rows to go. *)
Fixpoint readBMP_loop (m_width : Z) (rp n : nat) (stream row : list Z)
    (pixels : list RGBValue) : list RGBValue :=
  match n with
  | O => pixels
  | S n' =>
      let '(row, stream) := bmp_read_row rp stream row in
      readBMP_loop m_width rp n' stream row (bmp_row_pixels m_width row pixels)
  end.

(** [readBMP] from [file.seekg(dataOffset)] on, for the [m_width] and
    [m_height] read from the header and the bytes [stream] of the file
    from [dataOffset]: [m_RGBBytes] starts empty, [row] has [rowPadded]
    zero bytes, and the vector is reversed when [m_height > 0]. *)
Definition readBMP_pixels (m_width m_height : Z) (stream : list Z) : list RGBValue :=
  let rp := Z.to_nat (to_i32 (rowPadded m_width)) in
  let pixels :=
    readBMP_loop m_width rp (Z.to_nat m_height) stream (replicate rp 0) [] in
  if 0 <? m_height then reverse pixels else pixels.

(** Value of four bytes read least significant first. *)
Definition le32 (l : list Z) : Z :=
  match l with
  | [b0; b1; b2; b3] => b0 + 256 * b1 + 65536 * b2 + 16777216 * b3
  | _ => 0
  end.

(** The three bytes of a pixel in the file, and a row of pixels in the
    file: padded with zeroes to [rp] bytes. *)
Definition bgr (p : RGBValue) : list Z := [blue p; green p; red p].

Definition file_row (rp : nat) (ps : list RGBValue) : list Z :=
  concat (map bgr ps) ++ replicate (rp - 3 * length ps) 0.

(** Row [y] of an image of width [w], right to left: the order in which
    [writeBMP] puts its pixels in the file. *)
Definition mirror_row (P : list RGBValue) (w y : nat) : list RGBValue :=
  reverse (take w (drop (y * w) P)).

(** ** Arithmetic of the opcodes *)

Ltac zdiv := Z.to_euclidean_division_equations; lia.

Lemma shiftr_div (x : Z) (n : Z) : 0 <= n -> Z.shiftr x n = x / 2 ^ n.
Proof. intros Hn. now rewrite Z.shiftr_div_pow2. Qed.

Lemma land_63 (x : Z) : Z.land x 63 = x mod 64.
Proof. change 63 with (Z.ones 6). now rewrite Z.land_ones. Qed.

Lemma land_15 (x : Z) : Z.land x 15 = x mod 16.
Proof. change 15 with (Z.ones 4). now rewrite Z.land_ones. Qed.

Lemma land_3 (x : Z) : Z.land x 3 = x mod 4.
Proof. change 3 with (Z.ones 2). now rewrite Z.land_ones. Qed.

Lemma shiftl_4 (x : Z) : Z.shiftl x 4 = x * 16.
Proof. now rewrite Z.shiftl_mul_pow2. Qed.

Lemma shiftl_2 (x : Z) : Z.shiftl x 2 = x * 4.
Proof. now rewrite Z.shiftl_mul_pow2. Qed.

Ltac bits :=
  rewrite ?land_63, ?land_15, ?land_3, ?shiftl_4, ?shiftl_2,
    ?(shiftr_div _ 6), ?(shiftr_div _ 4), ?(shiftr_div _ 2) by lia;
  change (2 ^ 6) with 64; change (2 ^ 4) with 16; change (2 ^ 2) with 4.

Lemma valid_pixel_spec (p : RGBValue) :
  valid_pixel p = true <->
  (0 <= red p < 256 /\ 0 <= green p < 256 /\ 0 <= blue p < 256) /\ isNull p = false.
Proof.
  unfold valid_pixel. rewrite !andb_true_iff, negb_true_iff.
  rewrite !Z.leb_le, !Z.ltb_lt. tauto.
Qed.

Lemma RGB_eqb_spec (a b : RGBValue) :
  RGB_eqb a b = true <-> red a = red b /\ green a = green b /\ blue a = blue b.
Proof.
  unfold RGB_eqb. rewrite !andb_true_iff, !Z.eqb_eq. tauto.
Qed.

Lemma RGB_eqb_refl (a : RGBValue) : RGB_eqb a a = true.
Proof. apply RGB_eqb_spec. auto. Qed.

(** Two pixels with [isNull = false] that [operator==] equates are the same value. *)
Lemma RGB_eqb_eq (a b : RGBValue) :
  isNull a = false -> isNull b = false -> RGB_eqb a b = true -> a = b.
Proof.
  destruct a, b. simpl. intros -> -> H.
  apply RGB_eqb_spec in H. simpl in H. destruct H as (-> & -> & ->). reflexivity.
Qed.

Lemma hash_lt_64 (p : RGBValue) : valid_pixel p = true -> 0 <= hash p < 64.
Proof.
  intros H. apply valid_pixel_spec in H. destruct H as [(Hr & Hg & Hb) _].
  unfold hash, to_u8. rewrite Z.rem_mod_nonneg by lia. zdiv.
Qed.

(** A byte with tag [00] indexes one of the 64 slots. *)
Lemma index_op_lt_64 (b : Z) : Z.shiftr b 6 = 0 -> 0 <= b < 64.
Proof. bits. intros H. zdiv. Qed.

Lemma diff_fits_spec (dr dg db : Z) :
  diff_fits dr dg db = true <->
  (-2 <= dr <= 1) /\ (-2 <= dg <= 1) /\ (-2 <= db <= 1).
Proof.
  unfold diff_fits. rewrite !andb_true_iff, !Z.leb_le. tauto.
Qed.

Lemma luma_fits_spec (dr dg db : Z) :
  luma_fits dr dg db = true <->
  (-32 <= dg <= 31) /\ (-8 <= dr - dg <= 7) /\ (-8 <= db - dg <= 7).
Proof.
  unfold luma_fits. rewrite !andb_true_iff, !Z.leb_le. tauto.
Qed.

Lemma run_opcode_bits (L : nat) :
  (L <= 61)%nat ->
  Z.shiftr (run_opcode L) 6 = 3 /\
  Z.land (run_opcode L) 63 = Z.of_nat L /\
  run_opcode L <> 254.
Proof.
  intros HL. unfold run_opcode, to_u8. bits. repeat split; zdiv.
Qed.

Lemma diff_opcode_bits (dr dg db : Z) :
  diff_fits dr dg db = true ->
  diff_opcode dr dg db <> 254 /\
  Z.shiftr (diff_opcode dr dg db) 6 = 1 /\
  Z.land (Z.shiftr (diff_opcode dr dg db) 4) 3 - 2 = dr /\
  Z.land (Z.shiftr (diff_opcode dr dg db) 2) 3 - 2 = dg /\
  Z.land (diff_opcode dr dg db) 3 - 2 = db.
Proof.
  intros H. apply diff_fits_spec in H. unfold diff_opcode, to_u8. bits.
  repeat split; zdiv.
Qed.

Lemma luma_opcode_bits (dr dg db : Z) :
  luma_fits dr dg db = true ->
  luma_opcode1 dg <> 254 /\
  Z.shiftr (luma_opcode1 dg) 6 = 2 /\
  Z.land (luma_opcode1 dg) 63 - 32 = dg /\
  Z.land (Z.shiftr (luma_opcode2 dr dg db) 4) 15 - 8 = dr - dg /\
  Z.land (luma_opcode2 dr dg db) 15 - 8 = db - dg.
Proof.
  intros H. apply luma_fits_spec in H. unfold luma_opcode1, luma_opcode2, to_u8. bits.
  repeat split; zdiv.
Qed.

(** ** The loops terminate within their fuel *)

Section EncodeFacts.
Variable u : Uninit.
Variable P : list RGBValue.

Lemma run_scan_S (prev : RGBValue) (fuel rl ci : nat) (reads : list nat) :
  run_scan u P (S fuel) prev rl ci reads =
  if (62 <=? S rl)%nat then (S rl, S ci, reads)
  else if RGB_eqb (pixel_at u P (S ci)) prev
       then run_scan u P fuel prev (S rl) (S ci) (reads ++ [S ci])
       else (S rl, S ci, reads ++ [S ci]).
Proof. reflexivity. Qed.

(** The scan stops by itself before [runLength] passes 62: any fuel
    that covers the distance to 62 gives the same result. *)
Lemma run_scan_fuel (prev : RGBValue) (f1 : nat) :
  forall (f2 rl ci : nat) (reads : list nat),
    (rl < 62)%nat -> (62 <= f1 + rl)%nat -> (62 <= f2 + rl)%nat ->
    run_scan u P f1 prev rl ci reads = run_scan u P f2 prev rl ci reads.
Proof.
  induction f1 as [|f1 IH]; intros f2 rl ci reads Hrl H1 H2; [lia|].
  destruct f2 as [|f2]; [lia|]. rewrite !run_scan_S.
  destruct (62 <=? S rl)%nat eqn:Hcap; [reflexivity|].
  apply Nat.leb_gt in Hcap.
  destruct (RGB_eqb _ prev); [|reflexivity].
  apply IH; lia.
Qed.

(** The scan moves [curIdx] forward, by as much as it counts. *)
Lemma run_scan_advance (prev : RGBValue) (fuel : nat) :
  forall (rl ci : nat) (reads : list nat),
    ((run_scan u P fuel prev rl ci reads).1.2 + rl =
     (run_scan u P fuel prev rl ci reads).1.1 + ci)%nat /\
    (fuel <> O -> (rl < (run_scan u P fuel prev rl ci reads).1.1)%nat).
Proof.
  induction fuel as [|fuel IH]; intros rl ci reads;
    [simpl; split; [lia|congruence]|].
  rewrite run_scan_S.
  destruct (62 <=? S rl)%nat; [simpl; lia|].
  destruct (RGB_eqb _ prev); [|simpl; lia].
  specialize (IH (S rl) (S ci) (reads ++ [S ci])). destruct IH as [IH1 IH2].
  split; [lia|]. intros _. destruct fuel as [|fuel]; [simpl; lia|].
  assert (S fuel <> O) as Hne by lia. specialize (IH2 Hne). lia.
Qed.

Lemma encode_run_curIdx (s : enc_state) :
  (e_curIdx s < e_curIdx (encode_run u P s))%nat.
Proof.
  unfold encode_run.
  pose proof (run_scan_advance (e_prevPixel s) 62 0 (e_curIdx s) []) as [H1 H2].
  destruct (run_scan u P 62 (e_prevPixel s) 0 (e_curIdx s) []) as [[rl ci] reads].
  simpl in *. assert (62 <> 0)%nat as Hne by lia. specialize (H2 Hne). lia.
Qed.

Lemma encode_pixel_curIdx (s : enc_state) :
  e_curIdx (encode_pixel u P s) = S (e_curIdx s).
Proof.
  unfold encode_pixel.
  repeat match goal with |- context [if ?c then _ else _] => destruct c end;
    reflexivity.
Qed.

Lemma encode_iter_curIdx (s : enc_state) :
  (e_curIdx s < e_curIdx (encode_iter u P s).1)%nat.
Proof.
  unfold encode_iter. pose proof (encode_run_curIdx s) as Hrun.
  destruct (_ && _).
  - destruct (length P <=? _)%nat; simpl; [exact Hrun|].
    rewrite encode_pixel_curIdx. lia.
  - simpl. rewrite encode_pixel_curIdx. lia.
Qed.

(** [encode] runs its loop to the end: more fuel than the number of
    pixels left changes nothing. *)
Lemma encode_loop_fuel (fuel : nat) :
  forall (extra : nat) (s : enc_state),
    (length P <= e_curIdx s + fuel)%nat ->
    encode_loop u P (fuel + extra) s = encode_loop u P fuel s.
Proof.
  induction fuel as [|fuel IH]; intros extra s Hlen.
  - simpl. destruct extra as [|extra]; [reflexivity|]. simpl.
    destruct (e_curIdx s <? length P)%nat eqn:Hlt; [|reflexivity].
    apply Nat.ltb_lt in Hlt. lia.
  - simpl. destruct (e_curIdx s <? length P)%nat eqn:Hlt; [|reflexivity].
    pose proof (encode_iter_curIdx s) as Hadv.
    destruct (encode_iter u P s) as [s' brk]. simpl in Hadv.
    destruct brk; [reflexivity|]. apply IH. lia.
Qed.
End EncodeFacts.

Section DecodeFacts.
Variable u : Uninit.
Variable idx : list RGBValue.
Variable bytes : list Z.

Lemma decode_iter_curIdx (s : dec_state) :
  (d_curIdx s < d_curIdx (decode_iter u idx bytes s))%nat.
Proof.
  unfold decode_iter.
  repeat match goal with |- context [if ?c then _ else _] => destruct c end;
    simpl; lia.
Qed.

Lemma decode_loop_done (fuel : nat) (s : dec_state) :
  (length bytes <= d_curIdx s)%nat -> decode_loop u idx bytes fuel s = s.
Proof.
  intros H. destruct fuel as [|fuel]; [reflexivity|]. simpl.
  destruct (d_curIdx s <? length bytes)%nat eqn:Hlt; [|reflexivity].
  apply Nat.ltb_lt in Hlt. lia.
Qed.

Lemma decode_loop_add (n : nat) :
  forall (m : nat) (s : dec_state),
    decode_loop u idx bytes (n + m) s =
    decode_loop u idx bytes m (decode_loop u idx bytes n s).
Proof.
  induction n as [|n IH]; intros m s; [reflexivity|]. simpl.
  destruct (d_curIdx s <? length bytes)%nat eqn:Hlt; [apply IH|].
  apply Nat.ltb_ge in Hlt. symmetry. apply decode_loop_done. exact Hlt.
Qed.

(** With at least as much fuel as bytes left, the loop has consumed
    the whole stream. *)
Lemma decode_loop_end (fuel : nat) :
  forall s : dec_state,
    (length bytes <= d_curIdx s + fuel)%nat ->
    (length bytes <= d_curIdx (decode_loop u idx bytes fuel s))%nat.
Proof.
  induction fuel as [|fuel IH]; intros s Hlen; simpl; [lia|].
  destruct (d_curIdx s <? length bytes)%nat eqn:Hlt.
  - apply IH. pose proof (decode_iter_curIdx s). lia.
  - apply Nat.ltb_ge in Hlt. exact Hlt.
Qed.

(** [decode] runs its loop to the end. *)
Lemma decode_loop_fuel (fuel extra : nat) (s : dec_state) :
  (length bytes <= d_curIdx s + fuel)%nat ->
  decode_loop u idx bytes (fuel + extra) s = decode_loop u idx bytes fuel s.
Proof.
  intros Hlen. rewrite decode_loop_add. apply decode_loop_done.
  apply decode_loop_end. exact Hlen.
Qed.

(** A state reached at the end of the stream, with any fuel, is the
    state [decode] stops in. *)
Lemma decode_loop_reach (n : nat) (s s' : dec_state) :
  decode_loop u idx bytes n s = s' ->
  (length bytes <= d_curIdx s')%nat ->
  decode_loop u idx bytes (length bytes) s = s'.
Proof.
  intros Hn Hend.
  rewrite <- (decode_loop_fuel (length bytes) n s) by lia.
  rewrite Nat.add_comm, decode_loop_add, Hn.
  apply decode_loop_done. exact Hend.
Qed.
End DecodeFacts.

(** ** The run opcode *)

Section RunFacts.
Variable u : Uninit.
Variable P : list RGBValue.

(** A scan over [m] more equal pixels, ended by a different one. *)
Lemma run_scan_exact (prev : RGBValue) (fuel : nat) :
  forall (m rl ci : nat) (reads : list nat),
    (1 <= m <= fuel)%nat -> (rl + m <= 61)%nat ->
    (forall j, (1 <= j < m)%nat -> RGB_eqb (pixel_at u P (ci + j)) prev = true) ->
    RGB_eqb (pixel_at u P (ci + m)) prev = false ->
    (run_scan u P fuel prev rl ci reads).1 = ((rl + m)%nat, (ci + m)%nat).
Proof.
  induction fuel as [|fuel IH]; intros m rl ci reads Hm Hrl Heq Hne; [lia|].
  rewrite run_scan_S.
  destruct (62 <=? S rl)%nat eqn:Hcap; [apply Nat.leb_le in Hcap; lia|].
  destruct (Nat.eq_dec m 1%nat) as [->|Hm1].
  - replace (S ci) with (ci + 1)%nat by lia. rewrite Hne. simpl.
    f_equal; lia.
  - replace (S ci) with (ci + 1)%nat at 1 by lia. rewrite Heq by lia.
    rewrite (IH (m - 1)%nat); [f_equal; lia|lia|lia| |].
    + intros j Hj. replace (S ci + j)%nat with (ci + S j)%nat by lia.
      apply Heq. lia.
    + replace (S ci + (m - 1))%nat with (ci + m)%nat by lia. exact Hne.
Qed.

(** Every position the loop condition has read stays recorded. *)
Lemma run_scan_reads_mono (prev : RGBValue) (fuel : nat) :
  forall (rl ci : nat) (reads : list nat) (x : nat),
    In x reads -> In x (run_scan u P fuel prev rl ci reads).2.
Proof.
  induction fuel as [|fuel IH]; intros rl ci reads x Hx; [exact Hx|].
  rewrite run_scan_S.
  destruct (62 <=? S rl)%nat; [exact Hx|].
  destruct (RGB_eqb _ prev).
  - apply IH. apply in_or_app. left. exact Hx.
  - simpl. apply in_or_app. left. exact Hx.
Qed.

(** A scan that meets only equal pixels up to the end of the vector,
    fewer than 62 of them, evaluates its condition at [size()]. *)
Lemma run_scan_reads_size (prev : RGBValue) (fuel : nat) :
  forall (rl ci : nat) (reads : list nat),
    (ci < length P)%nat -> (length P - ci <= fuel)%nat ->
    (rl + (length P - ci) < 62)%nat ->
    (forall j, (ci < j < length P)%nat -> RGB_eqb (pixel_at u P j) prev = true) ->
    In (length P) (run_scan u P fuel prev rl ci reads).2.
Proof.
  induction fuel as [|fuel IH]; intros rl ci reads Hci Hfuel Hrl Heq; [lia|].
  rewrite run_scan_S.
  destruct (62 <=? S rl)%nat eqn:Hcap; [apply Nat.leb_le in Hcap; lia|].
  destruct (Nat.eq_dec (S ci) (length P)) as [Hend|Hmore].
  - rewrite <- Hend.
    destruct (RGB_eqb _ prev).
    + apply run_scan_reads_mono. apply in_or_app. right. left. reflexivity.
    + simpl. apply in_or_app. right. left. reflexivity.
  - rewrite Heq by lia. apply IH; try lia.
    intros j Hj. apply Heq. lia.
Qed.
End RunFacts.

(** The run branch on a run of [L] pixels that stops before the cap. *)
Lemma encode_run_exact (u : Uninit) (P : list RGBValue) (s : enc_state) (L : nat) :
  (1 <= L <= 61)%nat ->
  (forall j, (j < L)%nat ->
     RGB_eqb (pixel_at u P (e_curIdx s + j)) (e_prevPixel s) = true) ->
  RGB_eqb (pixel_at u P (e_curIdx s + L)) (e_prevPixel s) = false ->
  encode_run u P s =
    mkEnc (e_curIdx s + L) (e_prevPixel s) (e_index s)
          (e_QOIBytes s ++ [run_opcode L]).
Proof.
  intros HL Heq Hne. unfold encode_run.
  pose proof (run_scan_exact u P (e_prevPixel s) 62 L 0 (e_curIdx s) []) as Hscan.
  destruct (run_scan u P 62 (e_prevPixel s) 0 (e_curIdx s) []) as [[rl ci] reads].
  simpl in Hscan.
  assert ((rl, ci) = (L, (e_curIdx s + L)%nat)) as Hres.
  { apply Hscan; [lia|lia| |exact Hne]. intros j Hj. apply Heq. lia. }
  inversion Hres. subst. reflexivity.
Qed.

(** C2, as the code has it: a run of [L] pixels, [1 <= L <= 61], that
    ends on a different pixel makes the encoder push the single byte
    [0b11000000 + L]; its tag is [11], its 6-bit payload is [L] itself
    (no bias), and it differs from the literal byte [0xFE]. *)
Theorem C2_run_byte_unbiased (u : Uninit) (P : list RGBValue) (s : enc_state) (L : nat) :
  (1 <= L <= 61)%nat ->
  (forall j, (j < L)%nat ->
     RGB_eqb (pixel_at u P (e_curIdx s + j)) (e_prevPixel s) = true) ->
  RGB_eqb (pixel_at u P (e_curIdx s + L)) (e_prevPixel s) = false ->
  encode_run u P s =
    mkEnc (e_curIdx s + L) (e_prevPixel s) (e_index s)
          (e_QOIBytes s ++ [run_opcode L]) /\
  Z.shiftr (run_opcode L) 6 = 3 /\
  Z.land (run_opcode L) 63 = Z.of_nat L /\
  run_opcode L <> 254.
Proof.
  intros HL Heq Hne. split; [|apply run_opcode_bits; lia].
  apply encode_run_exact; assumption.
Qed.

Lemma C2_run_byte_unbiased_witness :
  encode_run zeroed [px 10 20 30; px 10 20 30; px 10 20 30]
             (mkEnc 1 (px 10 20 30) [] [20]) =
    mkEnc 3 (px 10 20 30) [] [20; 194] /\
  Z.shiftr (run_opcode 2) 6 = 3 /\
  Z.land (run_opcode 2) 63 = 2 /\
  run_opcode 2 <> 254.
Proof.
  apply (C2_run_byte_unbiased zeroed [px 10 20 30; px 10 20 30; px 10 20 30]
           (mkEnc 1 (px 10 20 30) [] [20]) 2).
  - lia.
  - intros j Hj. destruct j as [|[|j]]; [reflexivity|reflexivity|lia].
  - reflexivity.
Defined.

(** C2 fails as stated: after the first of 63 equal pixels the run has
    length 62 and the byte pushed for it is [0xFE], the literal byte;
    and the payload of the byte of a run of 3 is 3, not 2. *)
Lemma C2_run_of_62_is_literal_byte :
  m_QOIBytes (encode_pixels zeroed (replicate 63 (px 10 20 30))) = [20; 254] /\
  run_opcode 62 = 254 /\
  m_QOIBytes (encode_pixels zeroed flat4) = [20; 195] /\
  Z.land 195 63 = 3.
Proof. vm_compute. repeat split; reflexivity. Qed.

(** ** The cache branch of the encoder *)

(** C3, as the code has it: for a pixel that fits neither the
    difference nor the luma opcode, with [h] its hash: when slot [h] is
    null the encoder stores the pixel there and pushes the index byte
    [h]; when the slot is set and equal to the pixel it pushes the index
    byte [h] and leaves the cache; only when the slot is set and
    different does it push [0xFE] and the three channels.  For a pixel
    of three bytes the index byte has tag [00]. *)
Theorem C3_index_opcode_on_miss (u : Uninit) (P : list RGBValue) (s : enc_state) :
  let cur := pixel_at u P (e_curIdx s) in
  let dr := red cur - red (e_prevPixel s) in
  let dg := green cur - green (e_prevPixel s) in
  let db := blue cur - blue (e_prevPixel s) in
  let h := hash cur in
  let slot := index_at u (e_index s) (Z.to_nat h) in
  diff_fits dr dg db = false ->
  luma_fits dr dg db = false ->
  (isNull slot = true ->
     encode_pixel u P s =
       mkEnc (S (e_curIdx s)) cur (<[Z.to_nat h := cur]> (e_index s))
             (e_QOIBytes s ++ [h])) /\
  (isNull slot = false -> RGB_eqb slot cur = true ->
     encode_pixel u P s =
       mkEnc (S (e_curIdx s)) cur (e_index s) (e_QOIBytes s ++ [h])) /\
  (isNull slot = false -> RGB_eqb slot cur = false ->
     encode_pixel u P s =
       mkEnc (S (e_curIdx s)) cur (e_index s)
             (e_QOIBytes s ++ [254; red cur; green cur; blue cur])) /\
  (valid_pixel cur = true -> Z.shiftr h 6 = 0 /\ Z.land h 63 = h).
Proof.
  intros cur dr dg db h slot Hd Hl. unfold encode_pixel.
  fold cur. fold dr dg db. rewrite Hd, Hl. fold h. fold slot.
  repeat split.
  - intros ->. reflexivity.
  - intros -> ->. reflexivity.
  - intros -> ->. reflexivity.
  - apply hash_lt_64 in H. fold h in H. bits. zdiv.
  - apply hash_lt_64 in H. fold h in H. bits. zdiv.
Qed.

Lemma C3_index_opcode_on_miss_witness :
  encode_pixel zeroed [px 10 20 30] (encode_init zeroed (QOI_Image_new zeroed)) =
    mkEnc 1 (px 10 20 30)
          (<[20%nat := px 10 20 30]> (index (QOI_Image_new zeroed))) [20] /\
  Z.shiftr 20 6 = 0.
Proof.
  pose proof (C3_index_opcode_on_miss zeroed [px 10 20 30]
                (encode_init zeroed (QOI_Image_new zeroed))) as H.
  destruct H as (Hmiss & _ & _ & Htag); [reflexivity|reflexivity|].
  split; [apply Hmiss; reflexivity|apply Htag; reflexivity].
Defined.

(** C3 fails as stated: the first pixel [(10,20,30)] of a new object
    misses the cache (slot 20 is null) and is encoded as the index byte
    [20], not as [0xFE 10 20 30]. *)
Lemma C3_miss_emits_index_byte :
  isNull (index_at zeroed (index (QOI_Image_new zeroed))
                   (Z.to_nat (hash (px 10 20 30)))) = true /\
  m_QOIBytes (encode_pixels zeroed [px 10 20 30]) = [20] /\
  m_QOIBytes (encode_pixels zeroed [px 10 20 30]) <> [254; 10; 20; 30].
Proof. vm_compute. repeat split; congruence. Qed.

(** C5, as the code has it: whichever opcode [encode_pixel] takes, the
    previous-pixel variable becomes the current pixel; when the opcode
    is a difference, a luma difference or a literal, the cache is left
    exactly as it was (it is written only on a miss of the cache
    branch). *)
Theorem C5_prev_updated_cache_kept (u : Uninit) (P : list RGBValue) (s : enc_state) :
  let cur := pixel_at u P (e_curIdx s) in
  let dr := red cur - red (e_prevPixel s) in
  let dg := green cur - green (e_prevPixel s) in
  let db := blue cur - blue (e_prevPixel s) in
  let slot := index_at u (e_index s) (Z.to_nat (hash cur)) in
  e_prevPixel (encode_pixel u P s) = cur /\
  (diff_fits dr dg db = true \/ luma_fits dr dg db = true \/
   (isNull slot = false /\ RGB_eqb slot cur = false) ->
   e_index (encode_pixel u P s) = e_index s).
Proof.
  intros cur dr dg db slot. unfold encode_pixel.
  fold cur. fold dr dg db. fold slot.
  destruct (diff_fits dr dg db); [split; [reflexivity|intros _; reflexivity]|].
  destruct (luma_fits dr dg db); [split; [reflexivity|intros _; reflexivity]|].
  destruct (isNull slot).
  - split; [reflexivity|]. intros [H|[H|[H _]]]; discriminate.
  - destruct (RGB_eqb slot cur); split; reflexivity || (intros _; reflexivity).
Qed.

Lemma C5_prev_updated_cache_kept_witness :
  e_prevPixel (encode_pixel zeroed [px 1 1 1] (encode_init zeroed (QOI_Image_new zeroed)))
    = px 1 1 1 /\
  e_index (encode_pixel zeroed [px 1 1 1] (encode_init zeroed (QOI_Image_new zeroed)))
    = index (QOI_Image_new zeroed).
Proof.
  pose proof (C5_prev_updated_cache_kept zeroed [px 1 1 1]
                (encode_init zeroed (QOI_Image_new zeroed))) as [Hprev Hidx].
  split; [exact Hprev|]. apply Hidx. left. reflexivity.
Defined.

(** C5 fails as stated: [(1,1,1)] is encoded by the difference opcode
    [0x7F] and slot 15, its hash, is still null afterwards; after the
    literal of the second pixel below, slot 0, its hash, still holds
    the first pixel. *)
Lemma C5_cache_not_updated :
  m_QOIBytes (encode_pixels zeroed [px 1 1 1]) = [127] /\
  hash (px 1 1 1) = 15 /\
  isNull (index_at zeroed (index (encode_pixels zeroed [px 1 1 1])) 15) = true /\
  m_QOIBytes (encode_pixels zeroed [px 64 0 0; px 128 0 0]) =
    [0; 254; 128; 0; 0] /\
  hash (px 128 0 0) = 0 /\
  index_at zeroed (index (encode_pixels zeroed [px 64 0 0; px 128 0 0])) 0 =
    px 64 0 0.
Proof. vm_compute. repeat split; reflexivity. Qed.

(** ** The run opcode in the decoder *)

Lemma back_snoc (u : Uninit) (l : list RGBValue) (p : RGBValue) :
  back u (l ++ [p]) = p.
Proof. unfold back. now rewrite last_snoc. Qed.

Lemma push_run_replicate (u : Uninit) (run : nat) :
  forall pixels : list RGBValue,
    push_run u run pixels = pixels ++ replicate run (back u pixels).
Proof.
  induction run as [|run IH]; intros pixels; simpl.
  - now rewrite app_nil_r.
  - rewrite IH, back_snoc, <- app_assoc. reflexivity.
Qed.

(** C6, as the code has it: on a byte [b] with [b >> 6 == 0b11] and
    [b != 0xFE] the decoder appends [m_RGBBytes.back()] exactly
    [b & 0x3F] times, the payload itself, and moves one byte on. *)
Theorem C6_run_appends_payload_copies
    (u : Uninit) (idx : list RGBValue) (bytes : list Z) (s : dec_state) (b : Z) :
  byte_at u bytes (d_curIdx s) = b ->
  Z.shiftr b 6 = 3 ->
  b <> 254 ->
  decode_iter u idx bytes s =
    mkDec (S (d_curIdx s))
          (d_RGBBytes s ++
           replicate (Z.to_nat (Z.land b 63)) (back u (d_RGBBytes s))).
Proof.
  intros Hb Htag Hlit. unfold decode_iter. rewrite Hb.
  apply Z.eqb_neq in Hlit. rewrite Hlit, Htag. simpl.
  now rewrite push_run_replicate.
Qed.

Lemma C6_run_appends_payload_copies_witness :
  decode_iter zeroed [] [195] (mkDec 0 [px 10 20 30]) =
    mkDec 1 ([px 10 20 30] ++ replicate 3 (px 10 20 30)).
Proof.
  apply (C6_run_appends_payload_copies zeroed [] [195] (mkDec 0 [px 10 20 30]) 195);
    [reflexivity|reflexivity|lia].
Defined.

(** C6 fails as stated: the run byte [0xC3] has payload 3 and the
    decoder appends 3 copies of the previous pixel, not 4; the byte
    [0xC0], payload 0, appends none. *)
Lemma C6_run_is_not_payload_plus_one :
  d_RGBBytes (decode_iter zeroed [] [195] (mkDec 0 [px 10 20 30])) =
    [px 10 20 30] ++ replicate 3 (px 10 20 30) /\
  d_RGBBytes (decode_iter zeroed [] [195] (mkDec 0 [px 10 20 30])) <>
    [px 10 20 30] ++ replicate (3 + 1) (px 10 20 30) /\
  d_RGBBytes (decode_iter zeroed [] [192] (mkDec 0 [px 10 20 30])) = [px 10 20 30].
Proof. vm_compute. repeat split; congruence. Qed.

(** ** The previous pixel at the start of a pass *)

(** C7 on the code: the first pixel is compared with the channels the
    default-constructed [prevPixel] happens to hold, and the first
    difference is decoded against [back()] of the empty vector.  With
    [(9,19,29)] in that storage the pixel [(10,20,30)] becomes the
    difference byte [0x7F] and [0x7F] decodes to [(10,20,30)]; with
    zeroes the same pixel becomes the index byte [20] and [0x7F] decodes
    to [(1,1,1)]. *)
Theorem C7_first_pixel_against_stale_storage :
  e_prevPixel (encode_init (stale 9 19 29) (QOI_Image_new (stale 9 19 29))) =
    RGBValue_default 9 19 29 /\
  m_QOIBytes (encode_pixels (stale 9 19 29) [px 10 20 30]) = [127] /\
  m_QOIBytes (encode_pixels zeroed [px 10 20 30]) = [20] /\
  m_RGBBytes (decode_bytes (stale 9 19 29) [127]) = [px 10 20 30] /\
  m_RGBBytes (decode_bytes zeroed [127]) = [px 1 1 1].
Proof. vm_compute. repeat split; reflexivity. Qed.

(** ** A stream that ends inside a luma opcode *)

(** C8, as the code has it: [decode] has no error result.  When the
    decoder reaches the last byte of the stream as an opcode and that
    byte has tag [10], it still appends one pixel (built with
    [isNull = false]) and stops; the outcome is a pixel vector. *)
Theorem C8_dangling_luma_yields_pixel
    (u : Uninit) (img : QOI_Image) (pre : list Z) (b : Z) (n : nat)
    (pixels : list RGBValue) :
  m_QOIBytes img = pre ++ [b] ->
  Z.shiftr b 6 = 2 ->
  decode_loop u (index img) (m_QOIBytes img) n (mkDec 0 []) =
    mkDec (length pre) pixels ->
  exists q : RGBValue,
    isNull q = false /\ decode_result u img = inr (pixels ++ [q]).
Proof.
  intros Hbytes Htag Hreach.
  assert (byte_at u (m_QOIBytes img) (length pre) = b) as Hb.
  { unfold byte_at. rewrite Hbytes, lookup_app_r by lia.
    now rewrite Nat.sub_diag. }
  assert (b <> 254) as Hlit by (intros ->; discriminate Htag).
  apply Z.eqb_neq in Hlit.
  pose (s1 := decode_iter u (index img) (m_QOIBytes img) (mkDec (length pre) pixels)).
  assert (decode_loop u (index img) (m_QOIBytes img) (n + 1) (mkDec 0 []) = s1) as H1.
  { rewrite decode_loop_add, Hreach. simpl.
    rewrite Hbytes at 1. rewrite length_app. simpl.
    destruct (length pre <? length pre + 1)%nat eqn:Hlt; [reflexivity|].
    apply Nat.ltb_ge in Hlt. lia. }
  assert (exists q, isNull q = false /\
                    s1 = mkDec (S (length pre) + 1) (pixels ++ [q])) as (q & Hq & Hs1).
  { unfold s1, decode_iter. simpl d_curIdx. simpl d_RGBBytes.
    rewrite Hb, Hlit, Htag. simpl. eexists. split; [|reflexivity]. reflexivity. }
  exists q. split; [exact Hq|].
  unfold decode_result, decode. simpl.
  rewrite (decode_loop_reach u (index img) (m_QOIBytes img) (n + 1) (mkDec 0 []) s1 H1).
  - rewrite Hs1. reflexivity.
  - rewrite Hs1, Hbytes, length_app. simpl. lia.
Qed.

Lemma C8_dangling_luma_yields_pixel_witness :
  exists q : RGBValue,
    isNull q = false /\
    decode_result zeroed (mkImage (index (QOI_Image_new zeroed)) [] [160]) =
      inr ([] ++ [q]).
Proof.
  apply (C8_dangling_luma_yields_pixel zeroed
           (mkImage (index (QOI_Image_new zeroed)) [] [160]) [] 160 0 []);
    reflexivity.
Defined.

(** C8 fails as stated: the one-byte stream [0xA0] (tag [10]) does not
    yield [TruncatedStream]; with zeroes after the stream the decoder
    returns the pixel [(248,0,248)]. *)
Lemma C8_no_truncated_stream_error :
  decode_result zeroed (mkImage (index (QOI_Image_new zeroed)) [] [160]) =
    inr [px 248 0 248] /\
  decode_result zeroed (mkImage (index (QOI_Image_new zeroed)) [] [160]) <>
    inl TruncatedStream.
Proof. vm_compute. split; congruence. Qed.

(** ** The run scan at the end of the pixel vector *)

(** C10 on the code: when the pixels from [curIdx] to the last one are
    all equal to [prevPixel] and fewer than 62, the condition of the
    [do ... while] is evaluated at position [size()], which is not a
    position of the vector. *)
Theorem C10_run_scan_reads_at_size
    (u : Uninit) (P : list RGBValue) (prev : RGBValue) (k : nat) :
  (k < length P)%nat ->
  (length P - k < 62)%nat ->
  (forall j, (k < j < length P)%nat -> RGB_eqb (pixel_at u P j) prev = true) ->
  In (length P) (run_scan u P 62 prev 0 k []).2 /\ P !! length P = None.
Proof.
  intros Hk Hlen Heq. split.
  - apply run_scan_reads_size; try lia. exact Heq.
  - apply lookup_ge_None. lia.
Qed.

Lemma C10_run_scan_reads_at_size_witness :
  In 2%nat (run_scan zeroed [px 1 2 3; px 1 2 3] 62 (px 1 2 3) 0 1 []).2 /\
  [px 1 2 3; px 1 2 3] !! 2%nat = None.
Proof.
  apply (C10_run_scan_reads_at_size zeroed [px 1 2 3; px 1 2 3] (px 1 2 3) 1).
  - simpl. lia.
  - simpl. lia.
  - simpl. intros j Hj. lia.
Defined.

(** The failing input of C10 evaluated: for the two-pixel image
    [(1,2,3), (1,2,3)] the scan reads position 2 and nothing else. *)
Lemma run_scan_two_equal_pixels :
  run_scan zeroed [px 1 2 3; px 1 2 3] 62 (px 1 2 3) 0 1 [] = (1%nat, 2%nat, [2%nat]).
Proof. reflexivity. Qed.

(** ** Round trip on the object that encoded *)

Lemma repeats_lookup (p : RGBValue) (l : list RGBValue) :
  forall j, (j < repeats p l)%nat ->
    exists q, l !! j = Some q /\ RGB_eqb q p = true.
Proof.
  induction l as [|q l IH]; simpl; intros j Hj; [lia|].
  destruct (RGB_eqb q p) eqn:Hq; [|lia].
  destruct j as [|j]; [exists q; auto|]. apply IH. lia.
Qed.

Lemma repeats_stop (p : RGBValue) (l : list RGBValue) :
  (repeats p l <= length l)%nat /\
  (forall q, l !! repeats p l = Some q -> RGB_eqb q p = false).
Proof.
  induction l as [|q l [IH1 IH2]]; simpl; [split; [lia|discriminate]|].
  destruct (RGB_eqb q p) eqn:Hq; simpl.
  - split; [lia|exact IH2].
  - split; [lia|]. intros q' [= <-]. exact Hq.
Qed.

Lemma repeats_le_longest (l : list RGBValue) :
  forall (i : nat) (p : RGBValue),
    l !! i = Some p -> (repeats p (drop (S i) l) <= longest_repeat l)%nat.
Proof.
  induction l as [|q l IH]; intros i p Hi; [discriminate|].
  destruct i as [|i]; simpl in *.
  - injection Hi as ->. rewrite drop_0. lia.
  - specialize (IH i p Hi). lia.
Qed.

Lemma take_add_replicate (P : list RGBValue) (p : RGBValue) (k : nat) :
  forall r : nat,
    (forall j, (j < r)%nat -> P !! (k + j)%nat = Some p) ->
    take (k + r) P = take k P ++ replicate r p.
Proof.
  induction r as [|r IH]; intros Hrun.
  - rewrite Nat.add_0_r. simpl. now rewrite app_nil_r.
  - replace (k + S r)%nat with (S (k + r)) by lia.
    rewrite (take_S_r P (k + r) p) by (apply Hrun; lia).
    rewrite IH by (intros j Hj; apply Hrun; lia).
    rewrite replicate_S_end, app_assoc. reflexivity.
Qed.

Lemma byte_at_app (u : Uninit) (out l : list Z) (j : nat) (x : Z) :
  l !! j = Some x -> byte_at u (out ++ l) (length out + j) = x.
Proof.
  intros H. unfold byte_at. rewrite lookup_app_r by lia.
  replace (length out + j - length out)%nat with j by lia. now rewrite H.
Qed.

Lemma byte_at_app_0 (u : Uninit) (out l : list Z) (x : Z) :
  byte_at u (out ++ x :: l) (length out) = x.
Proof.
  pose proof (byte_at_app u out (x :: l) 0 x eq_refl) as H.
  now rewrite Nat.add_0_r in H.
Qed.

Lemma byte_at_app_1 (u : Uninit) (out l : list Z) (x y : Z) :
  byte_at u (out ++ x :: y :: l) (S (length out)) = y.
Proof.
  replace (S (length out)) with (length out + 1)%nat by lia. now apply byte_at_app.
Qed.

Lemma byte_at_app_2 (u : Uninit) (out l : list Z) (x y z : Z) :
  byte_at u (out ++ x :: y :: z :: l) (S (length out) + 1) = z.
Proof.
  replace (S (length out) + 1)%nat with (length out + 2)%nat by lia.
  now apply byte_at_app.
Qed.

Lemma byte_at_app_3 (u : Uninit) (out l : list Z) (x y z w : Z) :
  byte_at u (out ++ x :: y :: z :: w :: l) (S (length out) + 2) = w.
Proof.
  replace (S (length out) + 2)%nat with (length out + 3)%nat by lia.
  now apply byte_at_app.
Qed.

(** [RGBValue(r, g, b)] rebuilds a pixel of three bytes from its channels. *)
Lemma RGBValue_of_channels (p : RGBValue) (r g b : Z) :
  valid_pixel p = true ->
  r = red p -> g = green p -> b = blue p ->
  RGBValue_of r g b = p.
Proof.
  intros H -> -> ->. apply valid_pixel_spec in H. destruct H as [(Hr & Hg & Hb) Hn].
  destruct p as [pr pg pb pn]. simpl in *. subst pn.
  unfold RGBValue_of, to_u8. rewrite !Z.mod_small by lia. reflexivity.
Qed.

(** The slots of a new object are all null. *)
Lemma QOI_Image_new_null (u : Uninit) (h : nat) :
  isNull (index_at u (index (QOI_Image_new u)) h) = true.
Proof.
  unfold index_at, QOI_Image_new. cbn [index].
  rewrite list_lookup_fmap.
  destruct (seq 0 64 !! h) as [i|]; simpl.
  - destruct (u_index u i) as [[r g] b]. reflexivity.
  - destruct (u_index u h) as [[r g] b]. reflexivity.
Qed.

Lemma QOI_Image_new_length (u : Uninit) : length (index (QOI_Image_new u)) = 64%nat.
Proof. unfold QOI_Image_new. cbn [index]. now rewrite length_fmap, length_seq. Qed.

Section RoundTrip.
Variable u : Uninit.
Variable P : list RGBValue.

Hypothesis Hvalid :
  forall (i : nat) (p : RGBValue), P !! i = Some p -> valid_pixel p = true.
Hypothesis Hrep : (longest_repeat P < 62)%nat.
Hypothesis Hoob :
  forall p : RGBValue, last P = Some p -> RGB_eqb (u_pixels u (length P)) p = false.

Lemma back_prev (k : nat) (prev : RGBValue) :
  prev_ok u P k prev ->
  red (back u (take k P)) = red prev /\
  green (back u (take k P)) = green prev /\
  blue (back u (take k P)) = blue prev.
Proof.
  destruct k as [|k]; simpl; intros H.
  - unfold back. simpl. intuition congruence.
  - rewrite (take_S_r P k prev H), back_snoc. auto.
Qed.

Lemma decodes_step (idx idx' : list RGBValue) (out chunk : list Z)
    (pixels pixels' : list RGBValue) :
  decodes_to u idx out pixels ->
  (forall c, cache_ext idx' c -> cache_ext idx c) ->
  (0 < length chunk)%nat ->
  (forall c suffix, cache_ext idx' c ->
     decode_iter u c (out ++ chunk ++ suffix) (mkDec (length out) pixels) =
     mkDec (length out + length chunk) pixels') ->
  decodes_to u idx' (out ++ chunk) pixels'.
Proof.
  intros Hdec Hext Hlen Hiter c suffix Hc.
  destruct (Hdec c (chunk ++ suffix) (Hext c Hc)) as [n Hn].
  exists (n + 1)%nat. rewrite <- app_assoc, decode_loop_add, Hn.
  cbn [decode_loop d_curIdx].
  destruct (length out <? length (out ++ chunk ++ suffix))%nat eqn:Hlt.
  - rewrite Hiter by exact Hc. now rewrite length_app.
  - apply Nat.ltb_ge in Hlt. rewrite !length_app in Hlt. lia.
Qed.

Lemma cache_ext_insert (idx c : list RGBValue) (n : nat) (p : RGBValue) :
  isNull (index_at u idx n) = true ->
  cache_ext (<[n := p]> idx) c -> cache_ext idx c.
Proof.
  intros Hnull Hc h q Hq Hnn. apply Hc; [|exact Hnn].
  destruct (Nat.eq_dec n h) as [->|Hne].
  - unfold index_at in Hnull. rewrite Hq in Hnull. congruence.
  - now rewrite list_lookup_insert_ne.
Qed.

(** Steps 2 to 4 keep the invariant: the bytes pushed for the pixel
    decode to that pixel. *)
Lemma enc_inv_pixel (s : enc_state) :
  enc_inv u P s -> (e_curIdx s < length P)%nat ->
  enc_inv u P (encode_pixel u P s).
Proof.
  destruct s as [k prev idx out].
  intros (Hle & Hidx & Hprev & Hdec) Hlt. simpl in *.
  destruct (lookup_lt_is_Some_2 P k Hlt) as [cur Hcur].
  pose proof (Hvalid k cur Hcur) as Hv.
  pose proof (proj1 (valid_pixel_spec cur) Hv) as [(Hr & Hg & Hb) Hnn].
  pose proof (back_prev k prev Hprev) as (Hbr & Hbg & Hbb).
  unfold encode_pixel, pixel_at. cbn [e_curIdx e_prevPixel e_index e_QOIBytes].
  rewrite Hcur.
  destruct (diff_fits _ _ _) eqn:Hd.
  { (* difference *)
    destruct (diff_opcode_bits _ _ _ Hd) as (Hne & Htag & Hdr & Hdg & Hdb).
    apply Z.eqb_neq in Hne.
    repeat split; cbn [e_curIdx e_prevPixel e_index e_QOIBytes];
      [lia|exact Hidx|exact Hcur|].
    rewrite (take_S_r P k cur Hcur).
    apply (decodes_step idx idx out _ (take k P)); [exact Hdec|auto|simpl; lia|].
    intros c suffix Hc. unfold decode_iter. cbn [d_curIdx d_RGBBytes].
    cbn [app]. rewrite byte_at_app_0, Hne, Htag.
    change (1 =? 0) with false. change (1 =? 1) with true. cbv iota.
    rewrite Hdr, Hdg, Hdb, Hbr, Hbg, Hbb.
    rewrite (RGBValue_of_channels cur) by (auto; lia).
    f_equal. simpl. lia. }
  destruct (luma_fits _ _ _) eqn:Hl.
  { (* luma difference *)
    destruct (luma_opcode_bits _ _ _ Hl) as (Hne & Htag & Hdg & Hdr & Hdb).
    apply Z.eqb_neq in Hne.
    repeat split; cbn [e_curIdx e_prevPixel e_index e_QOIBytes];
      [lia|exact Hidx|exact Hcur|].
    rewrite (take_S_r P k cur Hcur).
    apply (decodes_step idx idx out _ (take k P)); [exact Hdec|auto|simpl; lia|].
    intros c suffix Hc. unfold decode_iter. cbn [d_curIdx d_RGBBytes].
    cbn [app]. rewrite byte_at_app_0, byte_at_app_1, Hne, Htag.
    change (2 =? 0) with false. change (2 =? 1) with false.
    change (2 =? 2) with true. cbv iota.
    rewrite Hdr, Hdg, Hdb, Hbr, Hbg, Hbb.
    rewrite (RGBValue_of_channels cur) by (auto; lia).
    f_equal. simpl. lia. }
  pose proof (hash_lt_64 cur Hv) as Hh.
  assert (Z.to_nat (hash cur) < length idx)%nat as Hhn by lia.
  destruct (lookup_lt_is_Some_2 idx _ Hhn) as [slot Hslot].
  assert ((hash cur =? 254) = false) as Hne by (apply Z.eqb_neq; lia).
  assert (Z.shiftr (hash cur) 6 = 0) as Htag by (bits; zdiv).
  destruct (isNull (index_at u idx (Z.to_nat (hash cur)))) eqn:Hnull.
  { (* null slot: the pixel is stored and the index byte pushed *)
    repeat split; cbn [e_curIdx e_prevPixel e_index e_QOIBytes];
      [lia|now rewrite length_insert|exact Hcur|].
    rewrite (take_S_r P k cur Hcur).
    apply (decodes_step idx _ out _ (take k P));
      [exact Hdec|intros c; now apply cache_ext_insert|simpl; lia|].
    intros c suffix Hc. unfold decode_iter. cbn [d_curIdx d_RGBBytes].
    cbn [app]. rewrite byte_at_app_0, Hne, Htag.
    change (0 =? 0) with true. cbv iota.
    unfold index_at at 1.
    rewrite (Hc (Z.to_nat (hash cur)) cur) by
      (auto; now apply list_lookup_insert_eq).
    f_equal. simpl. lia. }
  unfold index_at in Hnull |- *. rewrite Hslot in Hnull |- *.
  destruct (RGB_eqb slot cur) eqn:Heq.
  { (* the slot holds the pixel *)
    apply RGB_eqb_eq in Heq; [|assumption|assumption]. subst slot.
    repeat split; cbn [e_curIdx e_prevPixel e_index e_QOIBytes];
      [lia|exact Hidx|exact Hcur|].
    rewrite (take_S_r P k cur Hcur).
    apply (decodes_step idx idx out _ (take k P)); [exact Hdec|auto|simpl; lia|].
    intros c suffix Hc. unfold decode_iter. cbn [d_curIdx d_RGBBytes].
    cbn [app]. rewrite byte_at_app_0, Hne, Htag.
    change (0 =? 0) with true. cbv iota.
    unfold index_at at 1. rewrite (Hc (Z.to_nat (hash cur)) cur) by auto.
    f_equal. simpl. lia. }
  (* literal *)
  repeat split; cbn [e_curIdx e_prevPixel e_index e_QOIBytes];
    [lia|exact Hidx|exact Hcur|].
  rewrite (take_S_r P k cur Hcur).
  apply (decodes_step idx idx out _ (take k P)); [exact Hdec|auto|simpl; lia|].
  intros c suffix Hc. unfold decode_iter. cbn [d_curIdx d_RGBBytes].
  cbn [app]. rewrite byte_at_app_0, byte_at_app_1, byte_at_app_2, byte_at_app_3.
  change (254 =? 254) with true. cbv iota.
  rewrite (RGBValue_of_channels cur) by auto.
  f_equal. simpl. lia.
Qed.

(** Step 1 keeps the invariant: the scan stays inside the vector, counts
    fewer than 62 pixels, and the byte pushed decodes to them. *)
Lemma enc_inv_run (s : enc_state) :
  enc_inv u P s -> (0 < e_curIdx s < length P)%nat ->
  RGB_eqb (pixel_at u P (e_curIdx s)) (e_prevPixel s) = true ->
  enc_inv u P (encode_run u P s).
Proof.
  destruct s as [k prev idx out].
  intros (Hle & Hidx & Hprev & Hdec) [Hpos Hlt] Hsame. simpl in *.
  destruct k as [|k']; [lia|]. simpl in Hprev. set (k := S k') in *.
  pose proof (Hvalid k' prev Hprev) as Hvp.
  pose proof (proj1 (valid_pixel_spec prev) Hvp) as [_ Hnp].
  set (r := repeats prev (drop k P)).
  assert (r <= 61)%nat as Hr61.
  { pose proof (repeats_le_longest P k' prev Hprev). fold k in H. fold r in H. lia. }
  (* the [r] pixels from [k] on are [prev] *)
  assert (forall j, (j < r)%nat -> P !! (k + j)%nat = Some prev) as Hrun.
  { intros j Hj. destruct (repeats_lookup prev (drop k P) j Hj) as (q & Hq & Heq).
    rewrite lookup_drop in Hq. rewrite Hq. f_equal.
    pose proof (Hvalid _ q Hq) as Hvq.
    pose proof (proj1 (valid_pixel_spec q) Hvq) as [_ Hnq].
    now apply RGB_eqb_eq. }
  assert (1 <= r)%nat as Hr1.
  { unfold r. destruct (lookup_lt_is_Some_2 P k Hlt) as [q Hq].
    unfold pixel_at in Hsame. rewrite Hq in Hsame.
    rewrite (drop_S P q k Hq). simpl. rewrite Hsame. lia. }
  pose proof (repeats_stop prev (drop k P)) as [Hrlen Hstop]. fold r in Hrlen, Hstop.
  rewrite length_drop in Hrlen.
  (* the position after them is different, inside or outside the vector *)
  assert (RGB_eqb (pixel_at u P (k + r)) prev = false) as Hne.
  { unfold pixel_at. destruct (P !! (k + r)%nat) as [q|] eqn:Hq.
    - apply Hstop. now rewrite lookup_drop.
    - apply lookup_ge_None in Hq. assert (k + r = length P)%nat as Hend by lia.
      rewrite Hend. apply Hoob. rewrite last_lookup.
      replace (Init.Nat.pred (length P)) with (k + (r - 1))%nat by lia.
      apply Hrun. lia. }
  rewrite (encode_run_exact u P (mkEnc k prev idx out) r); cbn [e_curIdx e_prevPixel];
    [|lia| |exact Hne].
  2:{ intros j Hj. unfold pixel_at. rewrite (Hrun j Hj). apply RGB_eqb_refl. }
  assert (k + r <= length P)%nat as Hin by lia.
  destruct (run_opcode_bits r Hr61) as (Htag & Hpay & Hlit).
  apply Z.eqb_neq in Hlit.
  repeat split; cbn [e_curIdx e_prevPixel e_index e_QOIBytes]; [lia|exact Hidx| |].
  - replace (k + r)%nat with (S (k + (r - 1))) by lia. simpl. apply Hrun. lia.
  - rewrite (take_add_replicate P prev k r Hrun).
    apply (decodes_step idx idx out _ (take k P)); [exact Hdec|auto|simpl; lia|].
    intros c suffix Hc. unfold decode_iter. cbn [d_curIdx d_RGBBytes].
    cbn [app]. rewrite byte_at_app_0, Hlit, Htag.
    change (3 =? 0) with false. change (3 =? 1) with false.
    change (3 =? 2) with false. change (3 =? 3) with true. cbv iota.
    rewrite Hpay, Nat2Z.id, push_run_replicate.
    assert (back u (take k P) = prev) as ->
      by (unfold k; rewrite (take_S_r P k' prev Hprev); apply back_snoc).
    f_equal. simpl. lia.
Qed.

Lemma enc_inv_iter (s : enc_state) :
  enc_inv u P s -> (e_curIdx s < length P)%nat ->
  enc_inv u P (encode_iter u P s).1 /\
  ((encode_iter u P s).2 = true ->
   (length P <= e_curIdx (encode_iter u P s).1)%nat).
Proof.
  intros Hinv Hlt. unfold encode_iter.
  destruct ((0 <? e_curIdx s)%nat && _) eqn:Hcond.
  - apply andb_true_iff in Hcond. destruct Hcond as [Hpos Hsame].
    apply Nat.ltb_lt in Hpos.
    pose proof (enc_inv_run s Hinv (conj Hpos Hlt) Hsame) as Hrun.
    destruct (length P <=? e_curIdx (encode_run u P s))%nat eqn:Hend; simpl.
    + apply Nat.leb_le in Hend. auto.
    + apply Nat.leb_gt in Hend. split; [|discriminate].
      now apply enc_inv_pixel.
  - simpl. split; [|discriminate]. now apply enc_inv_pixel.
Qed.

Lemma enc_inv_loop (fuel : nat) :
  forall s : enc_state,
    enc_inv u P s -> (length P <= e_curIdx s + fuel)%nat ->
    enc_inv u P (encode_loop u P fuel s) /\
    e_curIdx (encode_loop u P fuel s) = length P.
Proof.
  induction fuel as [|fuel IH]; intros s Hinv Hlen.
  - simpl. split; [exact Hinv|]. destruct Hinv as (Hle & _). lia.
  - simpl. destruct (e_curIdx s <? length P)%nat eqn:Hlt.
    + apply Nat.ltb_lt in Hlt.
      pose proof (enc_inv_iter s Hinv Hlt) as [Hinv' Hbrk].
      pose proof (encode_iter_curIdx u P s) as Hadv.
      destruct (encode_iter u P s) as [s' brk]. simpl in *.
      destruct brk.
      * split; [exact Hinv'|]. destruct Hinv' as (Hle & _).
        specialize (Hbrk eq_refl). lia.
      * apply IH; [exact Hinv'|lia].
    + apply Nat.ltb_ge in Hlt. split; [exact Hinv|].
      destruct Hinv as (Hle & _). lia.
Qed.

(** Encoding [P] on an object with 64 slots and no bytes yet, then
    decoding on that object, gives [P] back. *)
Lemma decode_encode_same_object (img : QOI_Image) :
  u_prev u = (red (u_back u), green (u_back u), blue (u_back u)) ->
  length (index img) = 64%nat ->
  m_RGBBytes img = P ->
  m_QOIBytes img = [] ->
  m_RGBBytes (decode u (encode u img)) = P.
Proof.
  intros Hprev Hidx HP Hout.
  assert (enc_inv u P (encode_init u img)) as Hinit.
  { unfold encode_init. rewrite Hprev, Hout.
    repeat split; cbn [e_curIdx e_prevPixel e_index e_QOIBytes]; [lia|exact Hidx|].
    intros c suffix _. exists O. reflexivity. }
  unfold encode. rewrite HP.
  destruct (enc_inv_loop (length P) (encode_init u img) Hinit) as [Hinv Hend]; [lia|].
  set (s := encode_loop u P (length P) (encode_init u img)) in *.
  destruct Hinv as (_ & _ & _ & Hdec).
  rewrite Hend, firstn_all in Hdec.
  destruct (Hdec (e_index s) [] (fun h p H _ => H)) as [n Hn].
  rewrite app_nil_r in Hn.
  unfold decode. cbn [index m_QOIBytes m_RGBBytes].
  rewrite (decode_loop_reach u (e_index s) (e_QOIBytes s) n (mkDec 0 []) _ Hn);
    [reflexivity|simpl; lia].
Qed.
End RoundTrip.

(** C1, as the code has it: encoding a pixel vector of valid pixels in
    which no pixel is followed by 62 copies of itself, on an object with
    an empty byte vector, and decoding on that same object (so that the
    decoder reads the cache the encoder left) gives the pixel vector
    back, provided the storage read as the first previous pixel holds
    the same channels for [encode] and [decode] and the cell after the
    last pixel does not repeat it. *)
Theorem C1_round_trip_same_object (u : Uninit) (img : QOI_Image) :
  length (index img) = 64%nat ->
  m_QOIBytes img = [] ->
  forallb valid_pixel (m_RGBBytes img) = true ->
  (longest_repeat (m_RGBBytes img) < 62)%nat ->
  u_prev u = (red (u_back u), green (u_back u), blue (u_back u)) ->
  (forall p : RGBValue,
     last (m_RGBBytes img) = Some p ->
     RGB_eqb (u_pixels u (length (m_RGBBytes img))) p = false) ->
  m_RGBBytes (decode u (encode u img)) = m_RGBBytes img.
Proof.
  intros Hidx Hout Hvalid Hrep Hprev Hoob.
  apply (decode_encode_same_object u (m_RGBBytes img)); auto.
  intros i p Hi. rewrite forallb_forall in Hvalid. apply Hvalid.
  apply list_elem_of_In. eapply list_elem_of_lookup_2. exact Hi.
Qed.

Lemma C1_round_trip_same_object_witness :
  m_RGBBytes
    (decode zeroed
       (encode zeroed
          (mkImage (index (QOI_Image_new zeroed))
             [px 1 2 3; px 1 2 3; px 1 2 3; px 200 3 4; px 100 50 3;
              px 200 3 4; px 201 4 3; px 210 10 12; px 210 10 12] []))) =
  [px 1 2 3; px 1 2 3; px 1 2 3; px 200 3 4; px 100 50 3;
   px 200 3 4; px 201 4 3; px 210 10 12; px 210 10 12].
Proof.
  apply (C1_round_trip_same_object zeroed
           (mkImage (index (QOI_Image_new zeroed))
              [px 1 2 3; px 1 2 3; px 1 2 3; px 200 3 4; px 100 50 3;
               px 200 3 4; px 201 4 3; px 210 10 12; px 210 10 12] [])).
  - reflexivity.
  - reflexivity.
  - reflexivity.
  - vm_compute. lia.
  - reflexivity.
  - intros p Hp. vm_compute in Hp. injection Hp as <-. reflexivity.
Defined.

(** C1 fails as stated.  Decoding the bytes of the one-pixel image
    [(10,20,30)] on a new object gives a null pixel, not the image; and
    for 63 equal pixels even decoding on the encoding object gives two
    pixels, because the byte of the run of 62 is the literal byte. *)
Lemma C1_round_trip_fails :
  m_QOIBytes (encode_pixels zeroed [px 10 20 30]) = [20] /\
  m_RGBBytes (decode_bytes zeroed [20]) = [RGBValue_default 0 0 0] /\
  m_RGBBytes (decode_bytes zeroed (m_QOIBytes (encode_pixels zeroed [px 10 20 30])))
    <> [px 10 20 30] /\
  m_RGBBytes (decode zeroed (encode_pixels zeroed (replicate 63 (px 10 20 30)))) =
    [px 10 20 30; px 0 0 0].
Proof. vm_compute. repeat split; congruence. Qed.

(** The two conditions on unwritten storage are needed: a cell after
    the vector that repeats the last pixel lengthens the run, and a
    first previous pixel that differs between [encode] and [decode]
    shifts the first difference. *)
Lemma round_trip_needs_storage_conditions :
  m_QOIBytes (encode_pixels past_end_copy flat4) = [20; 254] /\
  m_RGBBytes (decode past_end_copy (encode_pixels past_end_copy flat4)) <> flat4 /\
  m_QOIBytes (encode_pixels prev_differs [px 10 20 30]) = [127] /\
  m_RGBBytes (decode prev_differs (encode_pixels prev_differs [px 10 20 30])) =
    [px 1 1 1].
Proof. vm_compute. repeat split; congruence. Qed.

(** ** The cache in the decoder *)

(** C4, as the code has it: [decode] never writes the cache.  Every
    slot is after decoding what it was before; decoding on the object
    that encoded therefore ends with the encoder's final cache in every
    slot, and decoding on a new object ends with every slot null. *)
Theorem C4_decode_keeps_cache (u : Uninit) (img : QOI_Image) (bytes : list Z) (h : nat) :
  index (decode u img) = index img /\
  index_at u (index (decode u (encode u img))) h =
    index_at u (index (encode u img)) h /\
  isNull (index_at u (index (decode_bytes u bytes)) h) = true.
Proof.
  split; [reflexivity|]. split; [reflexivity|].
  unfold decode_bytes, decode. cbn [index]. apply QOI_Image_new_null.
Qed.

(** C4 fails as stated: after encoding [(10,20,30)] the encoder's slot
    20 holds the pixel, while the cache of a new object that decoded the
    resulting bytes has slot 20 still null. *)
Lemma C4_caches_differ :
  index (encode_pixels zeroed [px 10 20 30]) !! 20%nat = Some (px 10 20 30) /\
  index (decode_bytes zeroed (m_QOIBytes (encode_pixels zeroed [px 10 20 30])))
    !! 20%nat = Some (RGBValue_default 0 0 0) /\
  index (encode_pixels zeroed [px 10 20 30]) <>
  index (decode_bytes zeroed (m_QOIBytes (encode_pixels zeroed [px 10 20 30]))).
Proof. vm_compute. repeat split; congruence. Qed.

(** ** The flat image *)

Lemma encode_loop_S (u : Uninit) (P : list RGBValue) (fuel : nat) (s : enc_state) :
  encode_loop u P (S fuel) s =
  if (e_curIdx s <? length P)%nat then
    if (encode_iter u P s).2 then (encode_iter u P s).1
    else encode_loop u P fuel (encode_iter u P s).1
  else s.
Proof. simpl. destruct (encode_iter u P s) as [s' brk]. reflexivity. Qed.

(** The cache branch on a null slot. *)
Lemma encode_pixel_miss (u : Uninit) (P : list RGBValue) (s : enc_state) :
  diff_fits (red (pixel_at u P (e_curIdx s)) - red (e_prevPixel s))
            (green (pixel_at u P (e_curIdx s)) - green (e_prevPixel s))
            (blue (pixel_at u P (e_curIdx s)) - blue (e_prevPixel s)) = false ->
  luma_fits (red (pixel_at u P (e_curIdx s)) - red (e_prevPixel s))
            (green (pixel_at u P (e_curIdx s)) - green (e_prevPixel s))
            (blue (pixel_at u P (e_curIdx s)) - blue (e_prevPixel s)) = false ->
  isNull (index_at u (e_index s) (Z.to_nat (hash (pixel_at u P (e_curIdx s))))) = true ->
  encode_pixel u P s =
    mkEnc (S (e_curIdx s)) (pixel_at u P (e_curIdx s))
          (<[Z.to_nat (hash (pixel_at u P (e_curIdx s))) := pixel_at u P (e_curIdx s)]>
             (e_index s))
          (e_QOIBytes s ++ [hash (pixel_at u P (e_curIdx s))]).
Proof. intros Hd Hl Hn. unfold encode_pixel. now rewrite Hd, Hl, Hn. Qed.

Lemma flat4_encode (u : Uninit) :
  u_prev u = (0, 0, 0) ->
  RGB_eqb (u_pixels u 4) (px 10 20 30) = false ->
  encode_pixels u flat4 =
    mkImage (<[20%nat := px 10 20 30]> (index (QOI_Image_new u))) flat4 [20; 195].
Proof.
  intros Hprev Hoob. unfold encode_pixels, encode, encode_init.
  cbn [m_RGBBytes index m_QOIBytes]. rewrite Hprev.
  change (length flat4) with 4%nat.
  set (idx0 := index (QOI_Image_new u)).
  set (s0 := mkEnc 0 (RGBValue_default 0 0 0) idx0 []).
  set (s1 := mkEnc 1 (px 10 20 30) (<[20%nat := px 10 20 30]> idx0) [20]).
  set (s2 := mkEnc 4 (px 10 20 30) (<[20%nat := px 10 20 30]> idx0) [20; 195]).
  assert (encode_iter u flat4 s0 = (s1, false)) as H0.
  { unfold encode_iter. change (0 <? e_curIdx s0)%nat with false. cbn [andb].
    rewrite (encode_pixel_miss u flat4 s0);
      [reflexivity|reflexivity|reflexivity|apply QOI_Image_new_null]. }
  assert (encode_run u flat4 s1 = s2) as Hrun.
  { rewrite (encode_run_exact u flat4 s1 3); [reflexivity|lia| |exact Hoob].
    intros j Hj. destruct j as [|[|[|j]]]; [reflexivity|reflexivity|reflexivity|lia]. }
  assert (encode_iter u flat4 s1 = (s2, true)) as H1.
  { unfold encode_iter.
    change ((0 <? e_curIdx s1)%nat &&
            RGB_eqb (pixel_at u flat4 (e_curIdx s1)) (e_prevPixel s1)) with true.
    cbv iota. rewrite Hrun. reflexivity. }
  rewrite encode_loop_S, H0. change (e_curIdx s0 <? 4)%nat with true.
  cbn [fst snd]. cbv iota.
  rewrite encode_loop_S, H1. change (e_curIdx s1 <? 4)%nat with true.
  cbn [fst snd]. reflexivity.
Qed.

(** C9, as the code has it: with a zero first previous pixel and a cell
    after the vector that does not repeat the pixel, the four pixels
    [(10,20,30)] are encoded as two bytes, the index byte [20] for the
    first pixel and one run byte [0xC3] (tag [11], payload 3) for the
    other three; decoding them on the same object gives the four pixels
    back. *)
Theorem C9_flat_image (u : Uninit) :
  u_prev u = (0, 0, 0) ->
  RGB_eqb (u_pixels u 4) (px 10 20 30) = false ->
  m_QOIBytes (encode_pixels u flat4) = [20; 195] /\
  Z.shiftr 195 6 = 3 /\ Z.land 195 63 = 3 /\
  m_RGBBytes (decode u (encode_pixels u flat4)) = flat4.
Proof.
  intros Hprev Hoob. rewrite (flat4_encode u Hprev Hoob).
  split; [reflexivity|]. split; [reflexivity|]. split; [reflexivity|].
  vm_compute. reflexivity.
Qed.

Lemma C9_flat_image_witness :
  m_QOIBytes (encode_pixels zeroed flat4) = [20; 195] /\
  Z.shiftr 195 6 = 3 /\ Z.land 195 63 = 3 /\
  m_RGBBytes (decode zeroed (encode_pixels zeroed flat4)) = flat4.
Proof. apply (C9_flat_image zeroed); reflexivity. Defined.

(** C9 fails as stated: the output is not the single run byte [0xC3];
    the first pixel has a byte of its own. *)
Lemma C9_flat_image_two_bytes :
  m_QOIBytes (encode_pixels zeroed flat4) = [20; 195] /\
  m_QOIBytes (encode_pixels zeroed flat4) <> [195].
Proof. vm_compute. split; congruence. Qed.


(** * Further properties of [encode] and [decode] *)

(** ** What [encode] adds to the byte vector *)

Lemma encode_pixel_bytes (u : Uninit) (P : list RGBValue) (s : enc_state) :
  exists chunk : list Z,
    e_QOIBytes (encode_pixel u P s) = e_QOIBytes s ++ chunk /\
    (1 <= length chunk <= 4)%nat.
Proof.
  unfold encode_pixel.
  repeat match goal with |- context [if ?c then _ else _] => destruct c end;
    cbn [e_QOIBytes]; eexists; (split; [reflexivity|simpl; lia]).
Qed.

Lemma encode_run_bytes (u : Uninit) (P : list RGBValue) (s : enc_state) :
  exists b : Z, e_QOIBytes (encode_run u P s) = e_QOIBytes s ++ [b].
Proof.
  unfold encode_run.
  destruct (run_scan u P 62 (e_prevPixel s) 0 (e_curIdx s) []) as [[rl ci] reads].
  eexists. reflexivity.
Qed.

Lemma appended_iter (u : Uninit) (P : list RGBValue) (out0 : list Z) (s : enc_state) :
  (e_curIdx s < length P)%nat ->
  appended out0 (length P) s ->
  appended out0 (length P) (encode_iter u P s).1.
Proof.
  intros Hlt (out & Hout & Hlen). unfold encode_iter.
  assert (forall s1 : enc_state,
            (e_curIdx s1 < length P)%nat ->
            forall o1, e_QOIBytes s1 = out0 ++ o1 ->
            (length o1 + 4 <= 4 * S (e_curIdx s1))%nat ->
            appended out0 (length P) (encode_pixel u P s1)) as Hpix.
  { intros s1 H1 o1 Ho1 Hl1.
    destruct (encode_pixel_bytes u P s1) as (chunk & Hc & Hcl).
    exists (o1 ++ chunk). rewrite Hc, Ho1, encode_pixel_curIdx, app_assoc.
    split; [reflexivity|]. rewrite length_app. lia. }
  destruct (_ && _).
  - pose proof (encode_run_curIdx u P s) as Hadv.
    destruct (encode_run_bytes u P s) as (b & Hb).
    destruct (length P <=? e_curIdx (encode_run u P s))%nat eqn:Hend; cbn [fst].
    + exists (out ++ [b]). rewrite Hb, Hout, app_assoc. split; [reflexivity|].
      rewrite length_app. simpl. lia.
    + apply Nat.leb_gt in Hend.
      apply (Hpix _ Hend (out ++ [b])); [now rewrite Hb, Hout, app_assoc|].
      rewrite length_app. simpl. lia.
  - cbn [fst]. apply (Hpix s Hlt out Hout). lia.
Qed.

Lemma appended_loop (u : Uninit) (P : list RGBValue) (out0 : list Z) (fuel : nat) :
  forall s : enc_state,
    appended out0 (length P) s ->
    appended out0 (length P) (encode_loop u P fuel s).
Proof.
  induction fuel as [|fuel IH]; intros s Hs; [exact Hs|]. simpl.
  destruct (e_curIdx s <? length P)%nat eqn:Hlt; [|exact Hs].
  apply Nat.ltb_lt in Hlt.
  pose proof (appended_iter u P out0 s Hlt Hs) as Hit.
  destruct (encode_iter u P s) as [s' brk]. cbn [fst] in Hit.
  destruct brk; [exact Hit|]. now apply IH.
Qed.

(** [encode] never clears or rewrites [m_QOIBytes]: the bytes the object
    held stay in front, and what is appended is at most four bytes per
    pixel, whatever the unwritten storage holds. *)
Theorem encode_appends_at_most_4_per_pixel (u : Uninit) (img : QOI_Image) :
  exists out : list Z,
    m_QOIBytes (encode u img) = m_QOIBytes img ++ out /\
    (length out <= 4 * length (m_RGBBytes img))%nat /\
    m_RGBBytes (encode u img) = m_RGBBytes img.
Proof.
  unfold encode. cbn [m_QOIBytes m_RGBBytes].
  destruct (appended_loop u (m_RGBBytes img) (m_QOIBytes img)
              (length (m_RGBBytes img)) (encode_init u img)) as (out & Hout & Hlen).
  - exists []. unfold encode_init. destruct (u_prev u) as [[r g] b].
    cbn [e_QOIBytes e_curIdx]. rewrite app_nil_r. split; [reflexivity|simpl; lia].
  - exists out. split; [exact Hout|]. split; [lia|reflexivity].
Qed.

(** ** The cache is written once per slot *)

Lemma cache_inv_pixel (u : Uninit) (P idx0 : list RGBValue) (s : enc_state) :
  (e_curIdx s < length P)%nat ->
  cache_inv idx0 P (e_index s) ->
  cache_inv idx0 P (e_index (encode_pixel u P s)).
Proof.
  intros Hlt Hinv. unfold encode_pixel.
  destruct (diff_fits _ _ _); [exact Hinv|].
  destruct (luma_fits _ _ _); [exact Hinv|].
  destruct (isNull _) eqn:Hnull; [|destruct (RGB_eqb _ _); exact Hinv].
  cbn [e_index]. destruct Hinv as (Hlen & Hext & Hprov).
  destruct (lookup_lt_is_Some_2 P _ Hlt) as [cur Hcur].
  unfold pixel_at in *. rewrite Hcur in *.
  repeat split.
  - now rewrite length_insert.
  - intros h q Hq Hnn. destruct (Nat.eq_dec (Z.to_nat (hash cur)) h) as [<-|Hne].
    + unfold index_at in Hnull. rewrite (Hext _ q Hq Hnn) in Hnull. congruence.
    + rewrite list_lookup_insert_ne by exact Hne. now apply Hext.
  - intros h q Hq. apply list_lookup_insert_Some in Hq.
    destruct Hq as [(<- & <- & _)|(_ & Hq)]; [|now apply Hprov].
    right. exists (e_curIdx s). auto.
Qed.

Lemma cache_inv_run (u : Uninit) (P : list RGBValue) (s : enc_state) :
  e_index (encode_run u P s) = e_index s.
Proof.
  unfold encode_run.
  destruct (run_scan u P 62 (e_prevPixel s) 0 (e_curIdx s) []) as [[rl ci] reads].
  reflexivity.
Qed.

Lemma cache_inv_loop (u : Uninit) (P idx0 : list RGBValue) (fuel : nat) :
  forall s : enc_state,
    cache_inv idx0 P (e_index s) ->
    cache_inv idx0 P (e_index (encode_loop u P fuel s)).
Proof.
  induction fuel as [|fuel IH]; intros s Hs; [exact Hs|]. simpl.
  destruct (e_curIdx s <? length P)%nat eqn:Hlt; [|exact Hs].
  apply Nat.ltb_lt in Hlt.
  assert (cache_inv idx0 P (e_index (encode_iter u P s).1)) as Hit.
  { unfold encode_iter. destruct (_ && _).
    - destruct (length P <=? e_curIdx (encode_run u P s))%nat eqn:Hend; cbn [fst].
      + now rewrite cache_inv_run.
      + apply Nat.leb_gt in Hend. apply cache_inv_pixel; [exact Hend|].
        now rewrite cache_inv_run.
    - cbn [fst]. now apply cache_inv_pixel. }
  destruct (encode_iter u P s) as [s' brk]. cbn [fst] in Hit.
  destruct brk; [exact Hit|]. now apply IH.
Qed.

(** [encode] writes a slot of the cache only while it is null: a slot
    that is set when [encode] starts holds the same pixel when it ends,
    and the array keeps its length. *)
Theorem encode_keeps_set_slots (u : Uninit) (img : QOI_Image) (h : nat) (p : RGBValue) :
  index img !! h = Some p ->
  isNull p = false ->
  index (encode u img) !! h = Some p /\
  length (index (encode u img)) = length (index img).
Proof.
  intros Hp Hnn.
  destruct (cache_inv_loop u (m_RGBBytes img) (index img)
              (length (m_RGBBytes img)) (encode_init u img)) as (Hlen & Hext & _).
  - unfold encode_init. destruct (u_prev u) as [[r g] b]. cbn [e_index].
    repeat split; auto. intros ? ? ? ?. assumption.
  - unfold encode. cbn [index]. split; [now apply Hext|exact Hlen].
Qed.

Lemma encode_keeps_set_slots_witness :
  index (encode zeroed
           (encode_pixels zeroed [px 64 0 0; px 128 0 0; px 10 20 30])) !! 0%nat =
    Some (px 64 0 0) /\
  length (index (encode zeroed
           (encode_pixels zeroed [px 64 0 0; px 128 0 0; px 10 20 30]))) =
  length (index (encode_pixels zeroed [px 64 0 0; px 128 0 0; px 10 20 30])).
Proof.
  apply (encode_keeps_set_slots zeroed
           (encode_pixels zeroed [px 64 0 0; px 128 0 0; px 10 20 30]) 0 (px 64 0 0));
    reflexivity.
Defined.

(** Whatever a slot holds after [encode], it held before or it is a
    pixel of the image, stored at the slot of its hash. *)
Theorem encode_slots_hold_image_pixels (u : Uninit) (img : QOI_Image) (h : nat) (p : RGBValue) :
  index (encode u img) !! h = Some p ->
  index img !! h = Some p \/
  (exists i : nat, m_RGBBytes img !! i = Some p /\ Z.to_nat (hash p) = h).
Proof.
  intros Hp.
  destruct (cache_inv_loop u (m_RGBBytes img) (index img)
              (length (m_RGBBytes img)) (encode_init u img)) as (_ & _ & Hprov).
  - unfold encode_init. destruct (u_prev u) as [[r g] b]. cbn [e_index].
    repeat split; auto. intros ? ? ? ?. assumption.
  - apply Hprov. exact Hp.
Qed.

Lemma encode_slots_hold_image_pixels_witness :
  index (QOI_Image_new zeroed) !! 20%nat = Some (px 10 20 30) \/
  (exists i : nat,
     [px 10 20 30; px 10 20 30] !! i = Some (px 10 20 30) /\
     Z.to_nat (hash (px 10 20 30)) = 20%nat).
Proof.
  apply (encode_slots_hold_image_pixels zeroed
           (mkImage (index (QOI_Image_new zeroed)) [px 10 20 30; px 10 20 30] [])
           20 (px 10 20 30)).
  reflexivity.
Defined.

(** ** Bounds kept by the two loops *)

Lemma run_scan_le_62 (u : Uninit) (P : list RGBValue) (prev : RGBValue) (fuel : nat) :
  forall (rl ci : nat) (reads : list nat),
    (rl < 62)%nat -> ((run_scan u P fuel prev rl ci reads).1.1 <= 62)%nat.
Proof.
  induction fuel as [|fuel IH]; intros rl ci reads Hrl; [simpl; lia|].
  rewrite run_scan_S.
  destruct (62 <=? S rl)%nat eqn:Hcap.
  - simpl. lia.
  - apply Nat.leb_gt in Hcap. destruct (RGB_eqb _ prev); [apply IH; lia|simpl; lia].
Qed.

(** The byte of the run branch and the positions it stands for. *)
Lemma encode_run_shape (u : Uninit) (P : list RGBValue) (s : enc_state) :
  exists b : Z,
    e_QOIBytes (encode_run u P s) = e_QOIBytes s ++ [b] /\
    193 <= b <= 254 /\
    Z.shiftr b 6 = 3 /\
    e_curIdx (encode_run u P s) = (e_curIdx s + Z.to_nat (Z.land b 63))%nat /\
    e_prevPixel (encode_run u P s) = e_prevPixel s.
Proof.
  unfold encode_run.
  pose proof (run_scan_advance u P (e_prevPixel s) 62 0 (e_curIdx s) []) as [Hadv Hpos].
  pose proof (run_scan_le_62 u P (e_prevPixel s) 62 0 (e_curIdx s) []) as Hle.
  destruct (run_scan u P 62 (e_prevPixel s) 0 (e_curIdx s) []) as [[rl ci] reads].
  cbn [fst snd] in *.
  assert (1 <= rl <= 62)%nat as Hrl by (split; [apply Hpos|apply Hle]; lia).
  exists (run_opcode rl). cbn [e_QOIBytes e_curIdx e_prevPixel].
  split; [reflexivity|]. unfold run_opcode, to_u8. bits.
  assert ((192 + Z.of_nat rl) mod 256 mod 64 = Z.of_nat rl) as Hpay by zdiv.
  rewrite Hpay, Nat2Z.id. repeat split; zdiv.
Qed.

(** The run branch pushes one byte between [0xC1] and [0xFE]: the
    [uint8_t] counter never wraps, the tag is [11], and the six low bits
    are exactly the number of positions [curIdx] moved, between 1 and
    62, whatever the pixels and the storage after them hold. *)
Theorem encode_run_byte_counts_positions (u : Uninit) (P : list RGBValue) (s : enc_state) :
  exists b : Z,
    e_QOIBytes (encode_run u P s) = e_QOIBytes s ++ [b] /\
    193 <= b <= 254 /\
    Z.shiftr b 6 = 3 /\
    e_curIdx (encode_run u P s) = (e_curIdx s + Z.to_nat (Z.land b 63))%nat /\
    e_prevPixel (encode_run u P s) = e_prevPixel s.
Proof. exact (encode_run_shape u P s). Qed.

Lemma decode_iter_curIdx_le (u : Uninit) (idx : list RGBValue) (bytes : list Z)
    (s : dec_state) :
  (d_curIdx (decode_iter u idx bytes s) <= d_curIdx s + 4)%nat.
Proof.
  unfold decode_iter.
  repeat match goal with |- context [if ?c then _ else _] => destruct c end;
    simpl; lia.
Qed.

(** [decode] stops with [curIdx] at the end of the stream or at most
    three positions after it: a literal byte in the last three places
    makes it index [m_QOIBytes] past [size()], but never further. *)
Theorem decode_stops_within_3 (u : Uninit) (idx : list RGBValue) (bytes : list Z) :
  (length bytes <=
     d_curIdx (decode_loop u idx bytes (length bytes) (mkDec 0 [])) <=
   length bytes + 3)%nat.
Proof.
  split; [apply decode_loop_end; simpl; lia|].
  assert (forall fuel s, (d_curIdx s <= length bytes + 3)%nat ->
            (d_curIdx (decode_loop u idx bytes fuel s) <= length bytes + 3)%nat) as H.
  { induction fuel as [|fuel IH]; intros s Hs; [exact Hs|]. simpl.
    destruct (d_curIdx s <? length bytes)%nat eqn:Hlt; [|exact Hs].
    apply Nat.ltb_lt in Hlt. apply IH.
    pose proof (decode_iter_curIdx_le u idx bytes s). lia. }
  apply H. simpl. lia.
Qed.

(** The bound is reached: a lone literal byte. *)
Lemma decode_overrun_reached :
  d_curIdx (decode_loop zeroed [] [254] 1 (mkDec 0 [])) = 4%nat.
Proof. reflexivity. Qed.



(** The bound is reached: the byte [0xFF] alone gives 63 pixels. *)
Lemma decode_63_pixels_reached :
  length (m_RGBBytes (decode_bytes zeroed [255])) = 63%nat.
Proof. reflexivity. Qed.

(** Both accesses to the 64-slot array stay inside it: [index[hash]] in
    [encode] for a pixel of three bytes, and [index[curByte]] in
    [decode] for a byte whose tag is [00]. *)
Theorem index_accesses_in_bounds (idx : list RGBValue) (p : RGBValue) (b : Z) :
  length idx = 64%nat ->
  0 <= red p < 256 -> 0 <= green p < 256 -> 0 <= blue p < 256 ->
  Z.shiftr b 6 = 0 ->
  is_Some (idx !! Z.to_nat (hash p)) /\ is_Some (idx !! Z.to_nat b).
Proof.
  intros Hlen Hr Hg Hb Htag.
  assert (0 <= hash p < 64) as Hh
    by (unfold hash, to_u8; rewrite Z.rem_mod_nonneg by lia; zdiv).
  apply index_op_lt_64 in Htag.
  split; apply lookup_lt_is_Some_2; lia.
Qed.

Lemma index_accesses_in_bounds_witness :
  is_Some (index (QOI_Image_new zeroed) !! Z.to_nat (hash (px 255 255 255))) /\
  is_Some (index (QOI_Image_new zeroed) !! Z.to_nat 63).
Proof.
  apply (index_accesses_in_bounds (index (QOI_Image_new zeroed)) (px 255 255 255) 63);
    try reflexivity; vm_compute; split; congruence.
Defined.


(** * The container: [writeQOI] and [readQOI] *)

Lemma all_bytes_to_u8 (l : list Z) : all_bytes l = true -> map to_u8 l = l.
Proof.
  induction l as [|b l IH]; simpl; [reflexivity|].
  rewrite andb_true_iff, andb_true_iff, Z.leb_le, Z.ltb_lt.
  intros [Hb Hl]. unfold to_u8 at 1. rewrite Z.mod_small by lia. now rewrite IH.
Qed.

Lemma ends_with_marker_app (l : list Z) : ends_with_marker (l ++ endMarker) = true.
Proof.
  unfold ends_with_marker. rewrite length_app. cbn [length endMarker].
  replace (8 <=? length l + 8)%nat with true by (symmetry; apply Nat.leb_le; lia).
  cbn [forallb seq andb].
  replace (length l + 8 - 8)%nat with (length l) by lia.
  replace (length l + 8 - 1)%nat with (length l + 7)%nat by lia.
  rewrite !lookup_total_app_r by lia.
  replace (length l + 0 - length l)%nat with 0%nat by lia.
  replace (length l + 1 - length l)%nat with 1%nat by lia.
  replace (length l + 2 - length l)%nat with 2%nat by lia.
  replace (length l + 3 - length l)%nat with 3%nat by lia.
  replace (length l + 4 - length l)%nat with 4%nat by lia.
  replace (length l + 5 - length l)%nat with 5%nat by lia.
  replace (length l + 6 - length l)%nat with 6%nat by lia.
  replace (length l + 7 - length l)%nat with 7%nat by lia.
  reflexivity.
Qed.

Lemma ends_with_marker_inv (l : list Z) :
  ends_with_marker l = true -> exists l0 : list Z, l = l0 ++ endMarker.
Proof.
  unfold ends_with_marker. rewrite !andb_true_iff, Nat.leb_le.
  intros (Hlen & Hz & Hone). cbn [forallb seq] in Hz.
  rewrite !andb_true_iff, !Z.eqb_eq in Hz. rewrite Z.eqb_eq in Hone.
  destruct Hz as (H0 & H1 & H2 & H3 & H4 & H5 & H6 & _).
  set (n := (length l - 8)%nat) in *.
  exists (take n l). rewrite <- (take_drop n l) at 1. f_equal.
  assert (length (drop n l) = 8%nat) as Hd by (rewrite length_drop; lia).
  assert (forall i, (drop n l) !!! i = l !!! (n + i)%nat) as Hlk
    by (intros i; apply lookup_total_drop).
  replace (length l - 1)%nat with (n + 7)%nat in Hone by lia.
  rewrite <- Hlk in H0, H1, H2, H3, H4, H5, H6, Hone.
  destruct (drop n l) as [|a0 [|a1 [|a2 [|a3 [|a4 [|a5 [|a6 [|a7 [|a8 r]]]]]]]]];
    try discriminate Hd.
  cbn in H0, H1, H2, H3, H4, H5, H6, Hone. subst. reflexivity.
Qed.

Lemma trailing_zeros_snoc (l : list Z) (x : Z) :
  trailing_zeros (l ++ [x]) = if x =? 0 then S (trailing_zeros l) else O.
Proof. unfold trailing_zeros. rewrite rev_unit. reflexivity. Qed.

(** A list can pass the marker test after a byte only if the byte is 1
    and seven zeroes precede it. *)
Lemma ends_with_marker_snoc (l : list Z) (x : Z) :
  ends_with_marker (l ++ [x]) = true -> x = 1 /\ (7 <= trailing_zeros l)%nat.
Proof.
  intros H. apply ends_with_marker_inv in H. destruct H as [l0 H].
  change endMarker with ([0; 0; 0; 0; 0; 0; 0] ++ [1]) in H.
  rewrite app_assoc in H. apply app_inj_tail in H. destruct H as [-> ->].
  split; [reflexivity|]. unfold trailing_zeros. rewrite rev_app_distr. simpl. lia.
Qed.

Lemma marker_free_nil : marker_free [].
Proof. intros j. now rewrite take_nil. Qed.

Lemma marker_free_snoc (l : list Z) (x : Z) :
  marker_free l -> x <> 1 \/ (trailing_zeros l < 7)%nat -> marker_free (l ++ [x]).
Proof.
  intros Hl Hx j. destruct (Nat.le_gt_cases j (length l)) as [Hj|Hj].
  - rewrite take_app_le by exact Hj. apply Hl.
  - rewrite take_ge by (rewrite length_app; simpl; lia).
    destruct (ends_with_marker (l ++ [x])) eqn:He; [|reflexivity].
    apply ends_with_marker_snoc in He. lia.
Qed.

(** The loop with the bytes already pushed in [acc]: it stops at the
    first byte after which the marker test passes, and drops the eight
    bytes of the marker. *)
Lemma readQOI_loop_stop (s1 : list Z) :
  forall (x : Z) (s2 acc : list Z),
    (forall j, (j < length s1)%nat ->
       ends_with_marker (acc ++ map to_u8 (take (S j) s1)) = false) ->
    ends_with_marker (acc ++ map to_u8 s1 ++ [to_u8 x]) = true ->
    readQOI_loop (s1 ++ x :: s2) acc =
      take (length (acc ++ map to_u8 s1 ++ [to_u8 x]) - 8)
           (acc ++ map to_u8 s1 ++ [to_u8 x]).
Proof.
  induction s1 as [|a s1 IH]; intros x s2 acc Hpre Hend; simpl in *.
  - now rewrite Hend.
  - pose proof (Hpre 0%nat ltac:(lia)) as H0. simpl in H0. rewrite H0.
    rewrite (IH x s2 (acc ++ [to_u8 a])).
    + now rewrite <- !app_assoc.
    + intros j Hj. specialize (Hpre (S j) ltac:(lia)). simpl in Hpre.
      now rewrite <- app_assoc.
    + now rewrite <- app_assoc.
Qed.

(** The loop on a stream in which the marker test never passes: every
    byte is kept, up to [EOF]. *)
Lemma readQOI_loop_eof (s : list Z) :
  forall acc : list Z,
    (forall j, (j < length s)%nat ->
       ends_with_marker (acc ++ map to_u8 (take (S j) s)) = false) ->
    readQOI_loop s acc = acc ++ map to_u8 s.
Proof.
  induction s as [|a s IH]; intros acc Hpre; simpl in *.
  - now rewrite app_nil_r.
  - pose proof (Hpre 0%nat ltac:(lia)) as H0. simpl in H0. rewrite H0. rewrite (IH (acc ++ [to_u8 a])).
    + now rewrite <- app_assoc.
    + intros j Hj. specialize (Hpre (S j) ltac:(lia)). simpl in Hpre.
      now rewrite <- app_assoc.
Qed.

Lemma no_marker_before_end_spec (l : list Z) :
  no_marker_before_end l = true <->
  (forall j, (j < length l)%nat -> ends_with_marker (take j l) = false).
Proof.
  unfold no_marker_before_end. rewrite forallb_forall. split.
  - intros H j Hj. apply negb_true_iff. apply H. apply in_seq. lia.
  - intros H j Hj. apply in_seq in Hj. apply negb_true_iff. apply H. lia.
Qed.

(** The loop on bytes, marker, rest. *)
Lemma readQOI_loop_marker (bytes rest : list Z) :
  all_bytes bytes = true ->
  no_marker_before_end (bytes ++ endMarker) = true ->
  readQOI_loop (bytes ++ endMarker ++ rest) [] = bytes.
Proof.
  intros Hb Hfree. rewrite no_marker_before_end_spec in Hfree.
  set (z7 := [0; 0; 0; 0; 0; 0; 0]).
  assert (map to_u8 (bytes ++ z7) = bytes ++ z7) as Hmap
    by (rewrite map_app, (all_bytes_to_u8 bytes Hb); reflexivity).
  replace (bytes ++ endMarker ++ rest) with ((bytes ++ z7) ++ 1 :: rest)
    by (rewrite <- app_assoc; reflexivity).
  rewrite readQOI_loop_stop.
  - rewrite Hmap. cbn [app]. change (to_u8 1) with 1.
    rewrite <- app_assoc. change (z7 ++ [1]) with endMarker.
    rewrite length_app. cbn [length endMarker].
    replace (length bytes + 8 - 8)%nat with (length bytes) by lia.
    apply take_app_length.
  - intros j Hj. cbn [app]. rewrite <- firstn_map, Hmap.
    specialize (Hfree (S j)). rewrite length_app in Hj.
    replace (bytes ++ endMarker) with ((bytes ++ z7) ++ [1]) in Hfree
      by (rewrite <- app_assoc; reflexivity).
    rewrite take_app_le in Hfree by (rewrite length_app; lia).
    apply Hfree. rewrite !length_app. simpl in *. lia.
  - cbn [app]. rewrite Hmap. change (to_u8 1) with 1. rewrite <- app_assoc.
    apply ends_with_marker_app.
Qed.

(** [readQOI] stops at the first end marker: when the bytes before it
    contain no earlier one, the loop returns exactly those bytes, and
    whatever follows the marker in the file is never read. *)
Theorem readQOI_loop_stops_at_first_marker (bytes rest : list Z) :
  all_bytes bytes = true ->
  no_marker_before_end (bytes ++ endMarker) = true ->
  readQOI_loop (bytes ++ endMarker ++ rest) [] = bytes.
Proof. exact (readQOI_loop_marker bytes rest). Qed.

Lemma readQOI_loop_stops_at_first_marker_witness :
  readQOI_loop ([20; 195; 0; 0; 1] ++ endMarker ++ [7; 7; 7]) [] = [20; 195; 0; 0; 1].
Proof.
  apply (readQOI_loop_stops_at_first_marker [20; 195; 0; 0; 1] [7; 7; 7]); reflexivity.
Defined.

(** A file without end marker is accepted: when the marker test passes
    after no byte of the stream, the loop keeps every byte up to [EOF]. *)
Theorem readQOI_loop_without_marker (stream : list Z) :
  all_bytes stream = true ->
  no_marker_before_end stream = true ->
  ends_with_marker stream = false ->
  readQOI_loop stream [] = stream.
Proof.
  intros Hb Hfree Hlast. rewrite no_marker_before_end_spec in Hfree.
  rewrite readQOI_loop_eof; [now rewrite (all_bytes_to_u8 stream Hb)|].
  intros j Hj. cbn [app]. rewrite <- firstn_map, (all_bytes_to_u8 stream Hb).
  destruct (Nat.eq_dec (S j) (length stream)) as [He|Hne].
  - rewrite He, firstn_all. exact Hlast.
  - apply Hfree. lia.
Qed.

Lemma readQOI_loop_without_marker_witness :
  readQOI_loop [20; 195; 0; 0; 0; 0; 0; 0; 0; 2] [] = [20; 195; 0; 0; 0; 0; 0; 0; 0; 2].
Proof.
  apply (readQOI_loop_without_marker [20; 195; 0; 0; 0; 0; 0; 0; 0; 2]); reflexivity.
Defined.

(** [readQOI] on the output of [writeQOI]. *)
Lemma readQOI_of_writeQOI (hdr : list Z) (img img0 : QOI_Image) :
  length hdr = 10%nat ->
  all_bytes (m_QOIBytes img) = true ->
  no_marker_before_end (m_QOIBytes img ++ endMarker) = true ->
  readQOI img0 (writeQOI hdr img) =
    Some (mkImage (index img0) (m_RGBBytes img0) (m_QOIBytes img)).
Proof.
  intros Hh Hb Hfree. unfold readQOI, writeQOI.
  replace (length (qoif ++ hdr ++ m_QOIBytes img ++ endMarker) <? 14)%nat with false
    by (symmetry; apply Nat.ltb_ge; rewrite !length_app, Hh; simpl; lia).
  change (take 4 (qoif ++ hdr ++ m_QOIBytes img ++ endMarker)) with qoif.
  rewrite bool_decide_eq_true_2 by reflexivity.
  replace (drop 14 (qoif ++ hdr ++ m_QOIBytes img ++ endMarker))
    with (m_QOIBytes img ++ endMarker ++ []).
  - now rewrite readQOI_loop_marker.
  - rewrite app_nil_r, (app_assoc qoif hdr).
    rewrite drop_app_length'; [reflexivity|]. rewrite length_app, Hh. reflexivity.
Qed.

(** Container round trip: for a byte vector with no end marker inside,
    [readQOI] on the file [writeQOI] produced puts the same bytes back
    in [m_QOIBytes] (and leaves the cache and the pixels of the reading
    object alone). *)
Theorem readQOI_writeQOI (hdr : list Z) (img img0 : QOI_Image) :
  length hdr = 10%nat ->
  all_bytes (m_QOIBytes img) = true ->
  no_marker_before_end (m_QOIBytes img ++ endMarker) = true ->
  readQOI img0 (writeQOI hdr img) =
    Some (mkImage (index img0) (m_RGBBytes img0) (m_QOIBytes img)).
Proof. exact (readQOI_of_writeQOI hdr img img0). Qed.

Lemma readQOI_writeQOI_witness :
  readQOI (QOI_Image_new zeroed)
          (writeQOI [4; 0; 0; 0; 1; 0; 0; 0; 3; 0] (encode_pixels zeroed flat4)) =
    Some (mkImage (index (QOI_Image_new zeroed)) (m_RGBBytes (QOI_Image_new zeroed))
                  (m_QOIBytes (encode_pixels zeroed flat4))).
Proof.
  apply (readQOI_writeQOI [4; 0; 0; 0; 1; 0; 0; 0; 3; 0] (encode_pixels zeroed flat4)
           (QOI_Image_new zeroed)); reflexivity.
Defined.

(** ** The bytes [encode] pushes never contain the end marker *)

Lemma encode_loop_inv (u : Uninit) (P : list RGBValue) (Inv : enc_state -> Prop) :
  (forall s, (e_curIdx s < length P)%nat -> Inv s -> Inv (encode_pixel u P s)) ->
  (forall s, (0 < e_curIdx s < length P)%nat -> Inv s -> Inv (encode_run u P s)) ->
  forall (fuel : nat) (s : enc_state), Inv s -> Inv (encode_loop u P fuel s).
Proof.
  intros Hpix Hrun. induction fuel as [|fuel IH]; intros s Hs; [exact Hs|]. simpl.
  destruct (e_curIdx s <? length P)%nat eqn:Hlt; [|exact Hs].
  apply Nat.ltb_lt in Hlt.
  assert (Inv (encode_iter u P s).1) as Hit.
  { unfold encode_iter. destruct ((0 <? e_curIdx s)%nat && _) eqn:Hc.
    - apply andb_true_iff in Hc. destruct Hc as [Hpos _]. apply Nat.ltb_lt in Hpos.
      pose proof (Hrun s (conj Hpos Hlt) Hs) as Hr.
      destruct (length P <=? e_curIdx (encode_run u P s))%nat eqn:Hend; cbn [fst].
      + exact Hr.
      + apply Nat.leb_gt in Hend. now apply Hpix.
    - cbn [fst]. now apply Hpix. }
  destruct (encode_iter u P s) as [s' brk]. cbn [fst] in Hit.
  destruct brk; [exact Hit|]. now apply IH.
Qed.

(** One more byte after bytes that end in fewer than seven zeroes. *)
Lemma push_byte (out : list Z) (x : Z) :
  all_bytes out = true -> marker_free out ->
  (trailing_zeros out < 7)%nat -> 0 <= x < 256 ->
  all_bytes (out ++ [x]) = true /\ marker_free (out ++ [x]) /\
  (trailing_zeros (out ++ [x]) <= S (trailing_zeros out))%nat /\
  (x <> 0 -> trailing_zeros (out ++ [x]) = O).
Proof.
  intros Hb Hf Hz Hx. repeat split.
  - unfold all_bytes in *. rewrite forallb_app, Hb. simpl.
    rewrite andb_true_r, andb_true_iff, Z.leb_le, Z.ltb_lt. exact Hx.
  - apply marker_free_snoc; auto.
  - rewrite trailing_zeros_snoc. destruct (x =? 0); lia.
  - intros Hne. rewrite trailing_zeros_snoc. apply Z.eqb_neq in Hne. now rewrite Hne.
Qed.

Lemma to_u8_range (z : Z) : 0 <= to_u8 z < 256.
Proof. unfold to_u8. zdiv. Qed.

Section OutputFacts.
Variable u : Uninit.
Variable P : list RGBValue.
Hypothesis Hvalid :
  forall (i : nat) (p : RGBValue), P !! i = Some p -> valid_pixel p = true.

Lemma out_inv_zeros (s : enc_state) :
  out_inv s -> (trailing_zeros (e_QOIBytes s) <= 4)%nat.
Proof. intros (_ & _ & _ & [H|[H _]]); lia. Qed.

Lemma out_inv_pixel (s : enc_state) :
  (e_curIdx s < length P)%nat -> out_inv s -> out_inv (encode_pixel u P s).
Proof.
  destruct s as [k prev idx out]. cbn [e_curIdx]. intros Hlt Hinv.
  pose proof (out_inv_zeros _ Hinv) as Hz4.
  destruct Hinv as (Hb & Hf & Hlen & Hz). cbn [e_QOIBytes e_index e_prevPixel] in *.
  destruct (lookup_lt_is_Some_2 P k Hlt) as [cur Hcur].
  pose proof (Hvalid k cur Hcur) as Hv.
  pose proof (proj1 (valid_pixel_spec cur) Hv) as [(Hr & Hg & Hbl) Hnn].
  unfold encode_pixel, pixel_at. cbn [e_curIdx e_prevPixel e_index e_QOIBytes].
  rewrite Hcur.
  destruct (diff_fits _ _ _) eqn:Hd.
  { destruct (diff_opcode_bits _ _ _ Hd) as (_ & Htag & _).
    match goal with |- context [diff_opcode ?a ?b ?c] => set (d := diff_opcode a b c) in * end.
    assert (64 <= d < 128) as Hrange by (revert Htag; bits; intros; zdiv).
    destruct (push_byte out d Hb Hf) as (Hb' & Hf' & _ & Hz'); [lia|lia|].
    repeat split; cbn [e_QOIBytes e_index e_prevPixel]; auto.
    left. rewrite Hz' by lia. lia. }
  destruct (luma_fits _ _ _) eqn:Hl.
  { destruct (luma_opcode_bits _ _ _ Hl) as (_ & Htag & _).
    match goal with |- context [luma_opcode1 ?b] => set (l1 := luma_opcode1 b) in * end.
    match goal with |- context [luma_opcode2 ?a ?b ?c] => set (l2 := luma_opcode2 a b c) in * end.
    assert (128 <= l1 < 192) as Hrange by (revert Htag; bits; intros; zdiv).
    destruct (push_byte out l1 Hb Hf) as (Hb1 & Hf1 & _ & Hz1); [lia|lia|].
    specialize (Hz1 ltac:(lia)).
    destruct (push_byte (out ++ [l1]) l2 Hb1 Hf1) as (Hb2 & Hf2 & Hz2 & _);
      [lia|apply to_u8_range|].
    rewrite <- app_assoc in Hb2, Hf2, Hz2. cbn [app] in Hb2, Hf2, Hz2.
    repeat split; cbn [e_QOIBytes e_index e_prevPixel]; auto.
    left. lia. }
  pose proof (hash_lt_64 cur Hv) as Hh.
  assert (Z.to_nat (hash cur) < length idx)%nat as Hhn by lia.
  destruct (lookup_lt_is_Some_2 idx _ Hhn) as [slot Hslot].
  destruct (push_byte out (hash cur) Hb Hf) as (Hb' & Hf' & Hz' & Hz0); [lia|lia|].
  unfold index_at. rewrite Hslot.
  (* the pixel cannot follow an index byte 0 through the cache branch *)
  assert (hash cur = 0 -> RGB_eqb slot cur = true -> isNull slot = false ->
          (trailing_zeros out <= 3)%nat) as Hnot4.
  { intros Hh0 Heq Hsn. destruct Hz as [Hz|(_ & q & Hq & _ & Hqp)]; [exact Hz|].
    rewrite Hh0 in Hslot. change (Z.to_nat 0) with 0%nat in Hslot. rewrite Hslot in Hq. injection Hq as <-.
    apply RGB_eqb_spec in Heq, Hqp.
    assert (diff_fits (red cur - red prev) (green cur - green prev)
                      (blue cur - blue prev) = true) as Hfit
      by (apply diff_fits_spec; lia).
    congruence. }
  destruct (isNull slot) eqn:Hnull.
  { repeat split; cbn [e_QOIBytes e_index e_prevPixel]; auto.
    - now rewrite length_insert.
    - destruct (Z.eq_dec (hash cur) 0) as [Hh0|Hh0]; [|left; rewrite Hz0 by lia; lia].
      assert (trailing_zeros out <= 3)%nat as Hz3.
      { destruct Hz as [Hz|(_ & q & Hq & Hqn & _)]; [exact Hz|].
        rewrite Hh0 in Hslot. change (Z.to_nat 0) with 0%nat in Hslot. congruence. }
      right. split; [lia|]. exists cur. rewrite Hh0. change (Z.to_nat 0) with 0%nat.
      split; [apply list_lookup_insert_eq; lia|]. split; [exact Hnn|apply RGB_eqb_refl]. }
  destruct (RGB_eqb slot cur) eqn:Heq.
  { repeat split; cbn [e_QOIBytes e_index e_prevPixel]; auto.
    destruct (Z.eq_dec (hash cur) 0) as [Hh0|Hh0]; [|left; rewrite Hz0 by lia; lia].
    pose proof (Hnot4 Hh0 eq_refl eq_refl) as Hz3.
    right. split; [lia|]. exists slot. rewrite Hh0 in Hslot. change (Z.to_nat 0) with 0%nat in Hslot. auto. }
  (* literal *)
  destruct (push_byte out 254 Hb Hf) as (Hb1 & Hf1 & _ & Hz1); [lia|lia|].
  specialize (Hz1 ltac:(lia)).
  destruct (push_byte (out ++ [254]) (red cur) Hb1 Hf1) as (Hb2 & Hf2 & Hz2 & _);
    [lia|lia|].
  destruct (push_byte ((out ++ [254]) ++ [red cur]) (green cur) Hb2 Hf2)
    as (Hb3 & Hf3 & Hz3 & _); [lia|lia|].
  destruct (push_byte (((out ++ [254]) ++ [red cur]) ++ [green cur]) (blue cur) Hb3 Hf3)
    as (Hb4 & Hf4 & Hz4' & _); [lia|lia|].
  rewrite <- !app_assoc in Hb4, Hf4, Hz4'. cbn [app] in Hb4, Hf4, Hz4'.
  repeat split; cbn [e_QOIBytes e_index e_prevPixel]; auto. left. lia.
Qed.

Lemma out_inv_run (s : enc_state) : out_inv s -> out_inv (encode_run u P s).
Proof.
  intros Hinv. pose proof (out_inv_zeros _ Hinv) as Hz4.
  destruct Hinv as (Hb & Hf & Hlen & _).
  destruct (encode_run_shape u P s) as (b & Hout & Hrange & _).
  destruct (push_byte (e_QOIBytes s) b Hb Hf) as (Hb' & Hf' & _ & Hz'); [lia|lia|].
  unfold out_inv. rewrite Hout, cache_inv_run.
  repeat split; auto. left. rewrite Hz' by lia. lia.
Qed.

Lemma out_inv_encode (img : QOI_Image) :
  m_RGBBytes img = P -> length (index img) = 64%nat -> m_QOIBytes img = [] ->
  all_bytes (m_QOIBytes (encode u img)) = true /\
  marker_free (m_QOIBytes (encode u img)).
Proof.
  intros HP Hlen Hout. unfold encode. rewrite HP. cbn [m_QOIBytes].
  destruct (encode_loop_inv u P out_inv) with (fuel := length P) (s := encode_init u img)
    as (Hb & Hf & _).
  - apply out_inv_pixel.
  - intros s _. apply out_inv_run.
  - unfold encode_init, out_inv. destruct (u_prev u) as [[r g] b].
    cbn [e_QOIBytes e_index e_prevPixel]. rewrite Hout.
    repeat split; auto using marker_free_nil.
  - auto.
Qed.
End OutputFacts.

Lemma marker_free_before_end (out : list Z) :
  marker_free out -> no_marker_before_end (out ++ endMarker) = true.
Proof.
  intros Hf. apply no_marker_before_end_spec. intros j Hj.
  rewrite length_app in Hj. cbn [length endMarker] in Hj.
  destruct (Nat.le_gt_cases j (length out)) as [Hle|Hgt].
  - rewrite take_app_le by exact Hle. apply Hf.
  - replace j with (length out + (j - length out))%nat by lia.
    rewrite take_app_add.
    assert (exists zs, take (j - length out) endMarker = zs ++ [0]) as [zs Hzs].
    { destruct (j - length out)%nat as [|[|[|[|[|[|[|[|t]]]]]]]] eqn:Ht; try lia.
      - exists []. reflexivity.
      - exists [0]. reflexivity.
      - exists [0; 0]. reflexivity.
      - exists [0; 0; 0]. reflexivity.
      - exists [0; 0; 0; 0]. reflexivity.
      - exists [0; 0; 0; 0; 0]. reflexivity.
      - exists [0; 0; 0; 0; 0; 0]. reflexivity. }
    rewrite Hzs, app_assoc.
    destruct (ends_with_marker ((out ++ zs) ++ [0])) eqn:He; [|reflexivity].
    apply ends_with_marker_snoc in He. lia.
Qed.

Lemma valid_pixels_lookup (P : list RGBValue) :
  forallb valid_pixel P = true ->
  forall (i : nat) (p : RGBValue), P !! i = Some p -> valid_pixel p = true.
Proof.
  intros Hvalid i p Hi. rewrite forallb_forall in Hvalid. apply Hvalid.
  apply list_elem_of_In. eapply list_elem_of_lookup_2. exact Hi.
Qed.

Lemma encode_output_marker_free (u : Uninit) (img : QOI_Image) :
  length (index img) = 64%nat ->
  m_QOIBytes img = [] ->
  forallb valid_pixel (m_RGBBytes img) = true ->
  all_bytes (m_QOIBytes (encode u img)) = true /\
  no_marker_before_end (m_QOIBytes (encode u img) ++ endMarker) = true.
Proof.
  intros Hlen Hout Hvalid.
  destruct (out_inv_encode u (m_RGBBytes img) (valid_pixels_lookup _ Hvalid) img)
    as [Hb Hf]; auto.
  split; [exact Hb|]. now apply marker_free_before_end.
Qed.

(** The bytes [encode] produces for an image of valid pixels, on an
    object with 64 slots and no bytes yet, are bytes and never contain
    the end marker, whatever the unwritten storage holds: the marker
    [readQOI] looks for is the one [writeQOI] appends. *)
Theorem encode_output_has_no_marker (u : Uninit) (img : QOI_Image) :
  length (index img) = 64%nat ->
  m_QOIBytes img = [] ->
  forallb valid_pixel (m_RGBBytes img) = true ->
  all_bytes (m_QOIBytes (encode u img)) = true /\
  no_marker_before_end (m_QOIBytes (encode u img) ++ endMarker) = true.
Proof. exact (encode_output_marker_free u img). Qed.

Lemma encode_output_has_no_marker_witness :
  all_bytes (m_QOIBytes (encode_pixels zeroed [px 64 0 0; px 0 0 0; px 64 0 0; px 1 0 0])) = true /\
  no_marker_before_end
    (m_QOIBytes (encode_pixels zeroed [px 64 0 0; px 0 0 0; px 64 0 0; px 1 0 0])
     ++ endMarker) = true.
Proof.
  apply (encode_output_has_no_marker zeroed
           (mkImage (index (QOI_Image_new zeroed))
                    [px 64 0 0; px 0 0 0; px 64 0 0; px 1 0 0] []));
    reflexivity.
Defined.

(** ** The pipeline of [main] *)

(** [encode], [writeQOI], [readQOI] and [decode] on one object, as
    [main] runs them: under the conditions of the round trip on the
    encoding object, the file written is read back to the encoded bytes
    and decodes to the pixel vector.  No condition on the end marker is
    needed, since the encoded bytes never contain it. *)
Theorem main_pipeline_round_trip (u : Uninit) (img : QOI_Image) (hdr : list Z) :
  length hdr = 10%nat ->
  length (index img) = 64%nat ->
  m_QOIBytes img = [] ->
  forallb valid_pixel (m_RGBBytes img) = true ->
  (longest_repeat (m_RGBBytes img) < 62)%nat ->
  u_prev u = (red (u_back u), green (u_back u), blue (u_back u)) ->
  (forall p : RGBValue,
     last (m_RGBBytes img) = Some p ->
     RGB_eqb (u_pixels u (length (m_RGBBytes img))) p = false) ->
  exists img2 : QOI_Image,
    readQOI (encode u img) (writeQOI hdr (encode u img)) = Some img2 /\
    m_RGBBytes (decode u img2) = m_RGBBytes img.
Proof.
  intros Hhdr Hidx Hout Hvalid Hrep Hprev Hoob.
  destruct (encode_output_marker_free u img Hidx Hout Hvalid) as [Hb Hfree].
  eexists. split.
  - apply readQOI_of_writeQOI; assumption.
  - pose proof (decode_encode_same_object u (m_RGBBytes img)
                  (valid_pixels_lookup _ Hvalid) Hrep Hoob img Hprev Hidx eq_refl Hout)
      as Hrt.
    unfold decode in *. cbn [index m_QOIBytes m_RGBBytes] in *. exact Hrt.
Qed.

Lemma main_pipeline_round_trip_witness :
  exists img2 : QOI_Image,
    readQOI (encode zeroed (mkImage (index (QOI_Image_new zeroed))
                              [px 64 0 0; px 0 0 0; px 64 0 0; px 64 0 0; px 1 0 0] []))
            (writeQOI [5; 0; 0; 0; 1; 0; 0; 0; 3; 0]
               (encode zeroed (mkImage (index (QOI_Image_new zeroed))
                              [px 64 0 0; px 0 0 0; px 64 0 0; px 64 0 0; px 1 0 0] [])))
      = Some img2 /\
    m_RGBBytes (decode zeroed img2) =
      [px 64 0 0; px 0 0 0; px 64 0 0; px 64 0 0; px 1 0 0].
Proof.
  apply (main_pipeline_round_trip zeroed
           (mkImage (index (QOI_Image_new zeroed))
              [px 64 0 0; px 0 0 0; px 64 0 0; px 64 0 0; px 1 0 0] [])
           [5; 0; 0; 0; 1; 0; 0; 0; 3; 0]).
  - reflexivity.
  - reflexivity.
  - reflexivity.
  - reflexivity.
  - vm_compute. lia.
  - reflexivity.
  - intros p Hp. vm_compute in Hp. injection Hp as <-. reflexivity.
Defined.


(** * The bitmap file: [writeBMP] and [readBMP] *)

Lemma rowPadded_spec (w : Z) :
  0 <= w -> w * 3 + 3 < 4294967296 ->
  rowPadded w = 4 * ((w * 3 + 3) / 4).
Proof.
  intros H0 H1. unfold rowPadded, to_u32.
  rewrite (Z.mod_small (w * 3)) by lia. rewrite (Z.mod_small (w * 3 + 3)) by lia.
  set (a := w * 3 + 3) in *.
  change (Z.lnot 3 mod 4294967296) with (Z.land (Z.lnot (Z.ones 2)) (Z.ones 32)).
  rewrite Z.land_assoc, <- Z.ldiff_land, Z.ldiff_ones_r by lia.
  rewrite Z.land_ones, Z.shiftr_div_pow2, Z.shiftl_mul_pow2 by lia.
  change (2 ^ 2) with 4. change (2 ^ 32) with 4294967296.
  rewrite Z.mod_small; zdiv.
Qed.

Lemma length_concat_bgr (ps : list RGBValue) :
  length (concat (map bgr ps)) = (3 * length ps)%nat.
Proof. induction ps as [|p ps IH]; simpl; [reflexivity|]. rewrite IH. lia. Qed.

Lemma length_file_row (rp : nat) (ps : list RGBValue) :
  (3 * length ps <= rp)%nat -> length (file_row rp ps) = rp.
Proof.
  intros H. unfold file_row. rewrite length_app, length_concat_bgr, length_replicate. lia.
Qed.

(** A list built by reading position after position is the list read. *)
Lemma map_seq_lookup {A : Type} (G : nat -> A) (l : list A) :
  (forall (i : nat) (p : A), l !! i = Some p -> G i = p) ->
  map G (seq 0 (length l)) = l.
Proof.
  induction l as [|a l IH] using rev_ind; intros H; [reflexivity|].
  rewrite length_app. simpl. rewrite Nat.add_1_r, seq_S, map_app. simpl. f_equal.
  - apply IH. intros i p Hi. apply H. rewrite lookup_app_l; [exact Hi|].
    now apply lookup_lt_Some in Hi.
  - f_equal. apply H. rewrite lookup_app_r by lia. now rewrite Nat.sub_diag.
Qed.

Lemma foldl_push {A B : Type} (G : B -> A) (l : list B) :
  forall acc : list A,
    foldl (fun (acc : list A) (i : B) => acc ++ [G i]) acc l = acc ++ map G l.
Proof.
  induction l as [|b l IH]; intros acc; simpl; [now rewrite app_nil_r|].
  rewrite IH, <- app_assoc. reflexivity.
Qed.

(** The bytes of pixel [i] inside a row of the file. *)
Lemma concat_bgr_lookup (pad : list Z) (ps : list RGBValue) :
  forall (i j : nat) (p : RGBValue) (x : Z),
    ps !! i = Some p -> bgr p !! j = Some x ->
    (concat (map bgr ps) ++ pad) !! (3 * i + j)%nat = Some x.
Proof.
  induction ps as [|q ps IH]; intros i j p x Hi Hj; [discriminate|].
  cbn [map concat]. rewrite <- app_assoc.
  pose proof (lookup_lt_Some _ _ _ Hj) as Hlt.
  destruct i as [|i]; simpl in Hi.
  - injection Hi as ->. rewrite lookup_app_l by (simpl in *; lia). exact Hj.
  - rewrite lookup_app_r by (simpl; lia).
    replace (3 * S i + j - length (bgr q))%nat with (3 * i + j)%nat by (simpl; lia).
    now apply (IH i j p x).
Qed.

Lemma file_row_lookup_Some (rp : nat) (ps : list RGBValue)
    (i j : nat) (p : RGBValue) (x : Z) :
  ps !! i = Some p -> bgr p !! j = Some x ->
  file_row rp ps !! (3 * i + j)%nat = Some x.
Proof. apply concat_bgr_lookup. Qed.

Lemma file_row_lookup (rp : nat) (ps : list RGBValue) (i : nat) (p : RGBValue) :
  ps !! i = Some p ->
  file_row rp ps !!! (3 * i)%nat = blue p /\
  file_row rp ps !!! (3 * i + 1)%nat = green p /\
  file_row rp ps !!! (3 * i + 2)%nat = red p.
Proof.
  intros Hi. repeat split; apply list_lookup_total_correct.
  - rewrite <- (Nat.add_0_r (3 * i)). now apply (file_row_lookup_Some rp ps i 0 p).
  - now apply (file_row_lookup_Some rp ps i 1 p).
  - now apply (file_row_lookup_Some rp ps i 2 p).
Qed.

Section BmpRead.
Variables w rp : nat.
Hypothesis Hrp : (3 * w <= rp)%nat.

(** A row of the file, read back pixel by pixel. *)
Lemma bmp_row_pixels_file_row (r acc : list RGBValue) :
  length r = w -> forallb valid_pixel r = true ->
  bmp_row_pixels (Z.of_nat w) (file_row rp r) acc = acc ++ r.
Proof.
  intros Hlen Hvalid. unfold bmp_row_pixels. rewrite Nat2Z.id.
  change (foldl _ acc (seq 0 w)) with
    (foldl (fun (acc : list RGBValue) (i : nat) =>
              acc ++ [RGBValue_of (file_row rp r !!! Z.to_nat (Z.of_nat i * 3 + 2))
                                  (file_row rp r !!! Z.to_nat (Z.of_nat i * 3 + 1))
                                  (file_row rp r !!! Z.to_nat (Z.of_nat i * 3))])
           acc (seq 0 w)).
  rewrite foldl_push. f_equal. rewrite <- Hlen. apply map_seq_lookup.
  intros i p Hi.
  destruct (file_row_lookup rp r i p Hi) as (Hb & Hg & Hr).
  replace (Z.to_nat (Z.of_nat i * 3 + 2)) with (3 * i + 2)%nat by lia.
  replace (Z.to_nat (Z.of_nat i * 3 + 1)) with (3 * i + 1)%nat by lia.
  replace (Z.to_nat (Z.of_nat i * 3)) with (3 * i)%nat by lia.
  apply RGBValue_of_channels; auto.
  exact (valid_pixels_lookup r Hvalid i p Hi).
Qed.

(** The rows of a complete file, read back in file order. *)
Lemma readBMP_loop_rows (rows : list (list RGBValue)) :
  forall (rest row0 : list Z) (acc : list RGBValue),
    length row0 = rp ->
    Forall (fun r => length r = w /\ forallb valid_pixel r = true) rows ->
    readBMP_loop (Z.of_nat w) rp (length rows)
                 (concat (map (file_row rp) rows) ++ rest) row0 acc =
    acc ++ concat rows.
Proof.
  induction rows as [|r rows IH]; intros rest row0 acc Hrow Hrows.
  - simpl. now rewrite app_nil_r.
  - apply Forall_cons in Hrows. destruct Hrows as [[Hlen Hvalid] Hrows'].
    assert (length (file_row rp r) = rp) as Hfr by (apply length_file_row; lia).
    cbn [length map concat readBMP_loop]. unfold bmp_read_row.
    rewrite <- app_assoc.
    rewrite (take_app_length' (file_row rp r)) by (symmetry; exact Hfr).
    rewrite (drop_app_length' (file_row rp r)) by (symmetry; exact Hfr).
    rewrite Hfr, drop_ge, app_nil_r by lia.
    rewrite bmp_row_pixels_file_row by assumption.
    rewrite IH by (auto; apply length_file_row; lia).
    now rewrite <- app_assoc.
Qed.
End BmpRead.

Section BmpWrite.
Variable u : Uninit.
Variables w h : nat.
Variable P : list RGBValue.
Hypothesis Hw : Z.of_nat w * 3 + 3 < 2147483648.
Hypothesis Hsize : Z.of_nat (w * h) < 4294967296.
Hypothesis HP : length P = (w * h)%nat.

Lemma length_mirror_row (y : nat) : (y < h)%nat -> length (mirror_row P w y) = w.
Proof.
  intros Hy. unfold mirror_row. rewrite length_reverse, length_take, length_drop.
  nia.
Qed.

Lemma mirror_row_lookup (y i : nat) :
  (y < h)%nat -> (i < w)%nat ->
  mirror_row P w y !! i = P !! (y * w + (w - 1 - i))%nat.
Proof.
  intros Hy Hi. unfold mirror_row.
  assert (length (take w (drop (y * w) P)) = w) as Hlen
    by (rewrite length_take, length_drop; nia).
  rewrite reverse_lookup by lia. rewrite Hlen.
  rewrite lookup_take_lt by lia. rewrite lookup_drop. f_equal. lia.
Qed.

Lemma bmp_source_pixel (y i : nat) :
  (y < h)%nat -> (i < w)%nat ->
  Z.to_nat (to_u32 (to_u32 (Z.of_nat y * Z.of_nat w) +
                    to_u32 (to_u32 (Z.of_nat w - Z.of_nat i) - 1))) =
  (y * w + (w - 1 - i))%nat.
Proof.
  intros Hy Hi. rewrite Nat2Z.inj_mul in Hsize. unfold to_u32.
  rewrite (Z.mod_small (Z.of_nat y * Z.of_nat w)) by nia.
  rewrite (Z.mod_small (Z.of_nat w - Z.of_nat i)) by lia.
  rewrite (Z.mod_small (Z.of_nat w - Z.of_nat i - 1)) by lia.
  rewrite Z.mod_small by nia. lia.
Qed.

Lemma bmp_set_pixel_app (pre rest : list Z) (a b c : Z) (i : nat) (p : RGBValue) :
  (i < w)%nat -> length pre = (3 * i)%nat ->
  bmp_set_pixel (pre ++ a :: b :: c :: rest) (Z.of_nat i) p =
  (pre ++ bgr p) ++ rest.
Proof.
  intros Hi Hpre. unfold bmp_set_pixel, to_u32.
  rewrite (Z.mod_small (Z.of_nat i * 3)) by lia.
  rewrite !Z.mod_small by lia.
  replace (Z.to_nat (Z.of_nat i * 3 + 0)) with (length pre + 0)%nat by lia.
  replace (Z.to_nat (Z.of_nat i * 3 + 1)) with (length pre + 1)%nat by lia.
  replace (Z.to_nat (Z.of_nat i * 3 + 2)) with (length pre + 2)%nat by lia.
  rewrite !insert_app_r. simpl. now rewrite <- app_assoc.
Qed.

(** The inner loop after [k] columns. *)
Lemma bmp_fill_prefix (y : nat) (row : list Z) (k : nat) :
  (y < h)%nat -> (k <= w)%nat -> (3 * w <= length row)%nat ->
  foldl (fun (row : list Z) (i : nat) =>
           let x := Z.of_nat i in
           bmp_set_pixel row x
             (pixel_at u P
                (Z.to_nat (to_u32 (to_u32 (Z.of_nat y * Z.of_nat w) +
                                   to_u32 (to_u32 (Z.of_nat w - x) - 1))))))
        row (seq 0 k) =
  concat (map bgr (take k (mirror_row P w y))) ++ drop (3 * k) row.
Proof.
  intros Hy Hk Hrow. induction k as [|k IH]; [reflexivity|].
  rewrite seq_S, foldl_snoc, IH by lia. cbn [Nat.add].
  rewrite bmp_source_pixel by lia.
  assert (exists p, mirror_row P w y !! k = Some p /\
                    pixel_at u P (y * w + (w - 1 - k)) = p) as (p & Hp & Hpx).
  { pose proof (length_mirror_row y Hy) as Hlen.
    destruct (lookup_lt_is_Some_2 (mirror_row P w y) k ltac:(lia)) as [p Hp].
    exists p. split; [exact Hp|]. rewrite mirror_row_lookup in Hp by lia.
    unfold pixel_at. now rewrite Hp. }
  rewrite Hpx, (take_S_r _ _ _ Hp), map_app, concat_app. cbn [map concat].
  rewrite app_nil_r.
  assert (exists a b c, drop (3 * k) row = a :: b :: c :: drop (3 * S k) row)
    as (a & b & c & Hd).
  { rewrite <- (take_drop 3 (drop (3 * k) row)), drop_drop.
    assert (length (take 3 (drop (3 * k) row)) = 3%nat) as H3
      by (rewrite length_take, length_drop; lia).
    destruct (take 3 (drop (3 * k) row)) as [|a [|b [|c [|d t]]]]; try discriminate H3.
    exists a, b, c. simpl. do 4 f_equal. lia. }
  rewrite Hd. apply bmp_set_pixel_app; [lia|].
  rewrite length_concat_bgr, length_take, length_mirror_row by lia. lia.
Qed.

Lemma bmp_fill_row_spec (y : nat) (row : list Z) :
  (y < h)%nat -> (3 * w <= length row)%nat ->
  bmp_fill_row u P (Z.of_nat w) (Z.of_nat y) row =
  concat (map bgr (mirror_row P w y)) ++ drop (3 * w) row.
Proof.
  intros Hy Hrow. unfold bmp_fill_row.
  replace (Z.to_nat (Z.of_nat w)) with w by lia.
  etransitivity; [apply (bmp_fill_prefix y row w); lia|].
  rewrite take_ge by (rewrite length_mirror_row; lia). reflexivity.
Qed.
End BmpWrite.

Lemma forallb_lookup {A : Type} (f : A -> bool) (l : list A) :
  (forall (i : nat) (p : A), l !! i = Some p -> f p = true) -> forallb f l = true.
Proof.
  induction l as [|a l IH]; intros H; [reflexivity|]. simpl.
  rewrite (H 0%nat a eq_refl). apply IH. intros i p Hi. exact (H (S i) p Hi).
Qed.

Lemma rowPadded_bounds (w : nat) :
  Z.of_nat w * 3 + 3 < 2147483648 ->
  to_i32 (rowPadded (Z.of_nat w)) = rowPadded (Z.of_nat w) /\
  (3 * w <= Z.to_nat (rowPadded (Z.of_nat w)) < 3 * w + 4)%nat /\
  (Z.to_nat (rowPadded (Z.of_nat w)) mod 4 = 0)%nat.
Proof.
  intros Hw. rewrite rowPadded_spec by lia.
  set (a := Z.of_nat w * 3 + 3).
  assert (0 <= 4 * (a / 4) <= a /\ a < 4 * (a / 4) + 4) as Hq by (subst a; zdiv).
  repeat split.
  - unfold to_i32, to_u32. rewrite Z.mod_small by lia.
    destruct (4 * (a / 4) <? 2147483648) eqn:Hlt; [reflexivity|].
    apply Z.ltb_ge in Hlt. lia.
  - subst a. lia.
  - subst a. lia.
  - replace (Z.to_nat (4 * (a / 4))) with (Z.to_nat (a / 4) * 4)%nat by lia.
    apply Nat.Div0.mod_mul.
Qed.

Lemma bmp_row_count (h : nat) :
  Z.of_nat h < 2147483648 ->
  Z.to_nat (to_i32 (to_u32 (Z.of_nat h - 1)) + 1) = h.
Proof.
  intros Hh. unfold to_i32, to_u32. rewrite Z.mod_mod by lia.
  destruct (Nat.eq_dec h 0%nat) as [->|Hne]; [reflexivity|].
  rewrite Z.mod_small by lia.
  destruct (Z.of_nat h - 1 <? 2147483648) eqn:Hlt; [lia|].
  apply Z.ltb_ge in Hlt. lia.
Qed.

Lemma length_bmp_header (w h : Z) : length (bmp_header w h) = 54%nat.
Proof. reflexivity. Qed.

Section BmpFile.
Variable u : Uninit.
Variables w h : nat.
Variable P : list RGBValue.
Hypothesis Hw : Z.of_nat w * 3 + 3 < 2147483648.
Hypothesis Hh : Z.of_nat h < 2147483648.
Hypothesis Hsize : Z.of_nat (w * h) < 4294967296.
Hypothesis HP : length P = (w * h)%nat.

(** The rows [n - 1], ..., 0 as the outer loop writes them. *)
Lemma bmp_rows_spec (n : nat) :
  forall row : list Z,
    (n <= h)%nat ->
    length row = Z.to_nat (rowPadded (Z.of_nat w)) ->
    drop (3 * w) row = replicate (Z.to_nat (rowPadded (Z.of_nat w)) - 3 * w) 0 ->
    bmp_rows u P (Z.of_nat w) n row =
    concat (map (fun y => file_row (Z.to_nat (rowPadded (Z.of_nat w))) (mirror_row P w y))
                (reverse (seq 0 n))).
Proof.
  destruct (rowPadded_bounds w Hw) as (_ & Hrp & _).
  set (rp := Z.to_nat (rowPadded (Z.of_nat w))) in *.
  induction n as [|n IH]; intros row Hn Hlen Hpad; [reflexivity|].
  cbn [bmp_rows]. fold rp.
  rewrite (bmp_fill_row_spec u w h P Hw Hsize HP n row) by lia.
  rewrite Hpad.
  assert (concat (map bgr (mirror_row P w n)) ++ replicate (rp - 3 * w) 0 =
          file_row rp (mirror_row P w n)) as Hrow
    by (unfold file_row; now rewrite (length_mirror_row w h P Hsize HP n) by lia).
  rewrite Hrow.
  assert (length (file_row rp (mirror_row P w n)) = rp) as Hfr
    by (apply length_file_row; rewrite (length_mirror_row w h P Hsize HP n) by lia; lia).
  rewrite take_ge by lia.
  rewrite seq_S, reverse_snoc. cbn [Nat.add map concat]. f_equal.
  apply IH; [lia|exact Hfr|].
  rewrite <- Hrow. apply drop_app_length'.
  rewrite length_concat_bgr, (length_mirror_row w h P Hsize HP n) by lia. reflexivity.
Qed.

(** Rows 0 to [k - 1] right to left, last row first, are the first
    [k * w] pixels backwards. *)
Lemma concat_mirror_rows (k : nat) :
  (k <= h)%nat ->
  concat (map (mirror_row P w) (reverse (seq 0 k))) = reverse (take (k * w) P).
Proof.
  induction k as [|k IH]; intros Hk; [reflexivity|].
  rewrite seq_S, reverse_snoc. cbn [Nat.add map concat].
  rewrite IH by lia. unfold mirror_row. rewrite <- reverse_app, take_take_drop.
  do 2 f_equal. lia.
Qed.

Lemma writeBMP_rows_spec (img : QOI_Image) :
  m_RGBBytes img = P ->
  writeBMP u (Z.of_nat w) (Z.of_nat h) img =
  bmp_header (Z.of_nat w) (Z.of_nat h) ++
  concat (map (fun y => file_row (Z.to_nat (rowPadded (Z.of_nat w))) (mirror_row P w y))
              (reverse (seq 0 h))).
Proof.
  intros Himg. unfold writeBMP. rewrite Himg, bmp_row_count by exact Hh. f_equal.
  destruct (rowPadded_bounds w Hw) as (_ & Hrp & _).
  apply bmp_rows_spec; [lia|apply length_replicate|].
  rewrite drop_replicate. reflexivity.
Qed.
End BmpFile.

(** [readBMP] on rows of [w] valid pixels each, whatever follows them. *)
Lemma readBMP_pixels_rows (w : nat) (rows : list (list RGBValue)) (rest : list Z) :
  Z.of_nat w * 3 + 3 < 2147483648 ->
  Forall (fun r => length r = w /\ forallb valid_pixel r = true) rows ->
  readBMP_pixels (Z.of_nat w) (Z.of_nat (length rows))
    (concat (map (file_row (Z.to_nat (rowPadded (Z.of_nat w)))) rows) ++ rest) =
  reverse (concat rows).
Proof.
  intros Hw Hrows. destruct (rowPadded_bounds w Hw) as (Hi32 & Hrp & _).
  unfold readBMP_pixels. rewrite Hi32, Nat2Z.id.
  rewrite (readBMP_loop_rows w (Z.to_nat (rowPadded (Z.of_nat w))) (proj1 Hrp) rows)
    by (auto; apply length_replicate).
  cbn [app]. destruct (0 <? Z.of_nat (length rows)) eqn:Hpos; [reflexivity|].
  apply Z.ltb_ge in Hpos. destruct rows; [reflexivity|simpl in Hpos; lia].
Qed.

(** [readBMP] keeps the file order backwards: for a file whose pixel
    data are rows of [w] valid pixels, each padded to [rowPadded] bytes,
    [m_RGBBytes] ends as the pixels of the file in reverse order (last
    row first, and every row right to left); bytes after the last row
    are not read. *)
Theorem readBMP_reverses_file_order
    (w : nat) (rows : list (list RGBValue)) (rest : list Z) :
  Z.of_nat w * 3 + 3 < 2147483648 ->
  Z.of_nat (length rows) < 2147483648 ->
  Forall (fun r => length r = w /\ forallb valid_pixel r = true) rows ->
  readBMP_pixels (Z.of_nat w) (Z.of_nat (length rows))
    (concat (map (file_row (Z.to_nat (rowPadded (Z.of_nat w)))) rows) ++ rest) =
  reverse (concat rows).
Proof. intros Hw _. exact (readBMP_pixels_rows w rows rest Hw). Qed.

Lemma readBMP_reverses_file_order_witness :
  readBMP_pixels 2 2
    (concat (map (file_row (Z.to_nat (rowPadded 2)))
                 [[px 1 2 3; px 4 5 6]; [px 7 8 9; px 10 11 12]]) ++ [9; 9]) =
  reverse (concat [[px 1 2 3; px 4 5 6]; [px 7 8 9; px 10 11 12]]).
Proof.
  apply (readBMP_reverses_file_order 2
           [[px 1 2 3; px 4 5 6]; [px 7 8 9; px 10 11 12]] [9; 9]).
  - reflexivity.
  - reflexivity.
  - repeat constructor.
Defined.

Lemma mirror_rows_valid (w h : nat) (P : list RGBValue) :
  Z.of_nat w * 3 + 3 < 2147483648 ->
  Z.of_nat (w * h) < 4294967296 ->
  length P = (w * h)%nat ->
  forallb valid_pixel P = true ->
  Forall (fun r => length r = w /\ forallb valid_pixel r = true)
         (map (mirror_row P w) (reverse (seq 0 h))).
Proof.
  intros Hw Hsize HP Hvalid. apply Forall_forall. intros r Hr.
  apply list_elem_of_In, in_map_iff in Hr. destruct Hr as (y & <- & Hy).
  apply list_elem_of_In, elem_of_reverse, elem_of_seq in Hy.
  split; [apply (length_mirror_row w h P Hsize HP); lia|].
  apply forallb_lookup. intros i p Hi.
  pose proof (lookup_lt_Some _ _ _ Hi) as Hlt.
  rewrite (length_mirror_row w h P Hsize HP) in Hlt by lia.
  rewrite (mirror_row_lookup w h P Hw Hsize HP) in Hi by lia.
  exact (valid_pixels_lookup P Hvalid _ p Hi).
Qed.

(** The layout of the file [writeBMP] produces: the 54-byte header,
    then the rows from the last to the first, each with its pixels right
    to left as blue, green, red and padded with zeroes to [rowPadded]
    bytes, a multiple of four. *)
Theorem writeBMP_file_layout (u : Uninit) (w h : nat) (img : QOI_Image) :
  Z.of_nat w * 3 + 3 < 2147483648 ->
  Z.of_nat h < 2147483648 ->
  Z.of_nat (w * h) < 4294967296 ->
  length (m_RGBBytes img) = (w * h)%nat ->
  writeBMP u (Z.of_nat w) (Z.of_nat h) img =
    bmp_header (Z.of_nat w) (Z.of_nat h) ++
    concat (map (fun y => file_row (Z.to_nat (rowPadded (Z.of_nat w)))
                                   (mirror_row (m_RGBBytes img) w y))
                (reverse (seq 0 h))) /\
  (3 * w <= Z.to_nat (rowPadded (Z.of_nat w)) < 3 * w + 4)%nat /\
  (Z.to_nat (rowPadded (Z.of_nat w)) mod 4 = 0)%nat /\
  length (writeBMP u (Z.of_nat w) (Z.of_nat h) img) =
    (54 + Z.to_nat (rowPadded (Z.of_nat w)) * h)%nat.
Proof.
  intros Hw Hh Hsize HP.
  destruct (rowPadded_bounds w Hw) as (_ & Hrp & Hmod).
  pose proof (writeBMP_rows_spec u w h (m_RGBBytes img) Hw Hh Hsize HP img eq_refl) as Hfile.
  repeat split; try lia; try exact Hfile; try exact Hmod.
  rewrite Hfile, length_app, length_bmp_header. f_equal.
  set (rp := Z.to_nat (rowPadded (Z.of_nat w))) in *.
  assert (forall ys : list nat, Forall (fun y => (y < h)%nat) ys ->
            length (concat (map (fun y => file_row rp (mirror_row (m_RGBBytes img) w y)) ys))
            = (rp * length ys)%nat) as Hlen.
  { induction ys as [|y ys IH]; intros Hys; [simpl; lia|].
    apply Forall_cons in Hys. destruct Hys as [Hy Hys].
    cbn [map concat length]. rewrite length_app, IH by exact Hys.
    rewrite length_file_row
      by (rewrite (length_mirror_row w h _ Hsize HP) by exact Hy; lia).
    lia. }
  rewrite Hlen, length_reverse, length_seq; [reflexivity|].
  apply Forall_forall. intros y Hy. apply elem_of_reverse, elem_of_seq in Hy. lia.
Qed.

Lemma writeBMP_file_layout_witness :
  writeBMP zeroed 2 2 (mkImage [] [px 1 2 3; px 4 5 6; px 7 8 9; px 10 11 12] []) =
    bmp_header 2 2 ++
    concat (map (fun y => file_row (Z.to_nat (rowPadded 2))
                   (mirror_row [px 1 2 3; px 4 5 6; px 7 8 9; px 10 11 12] 2 y))
                (reverse (seq 0 2))) /\
  (3 * 2 <= Z.to_nat (rowPadded 2) < 3 * 2 + 4)%nat /\
  (Z.to_nat (rowPadded 2) mod 4 = 0)%nat /\
  length (writeBMP zeroed 2 2
            (mkImage [] [px 1 2 3; px 4 5 6; px 7 8 9; px 10 11 12] [])) =
    (54 + Z.to_nat (rowPadded 2) * 2)%nat.
Proof.
  apply (writeBMP_file_layout zeroed 2 2
           (mkImage [] [px 1 2 3; px 4 5 6; px 7 8 9; px 10 11 12] []));
    reflexivity.
Defined.

(** Bitmap round trip: the pixel data [writeBMP] puts after its 54-byte
    header, read by [readBMP] with the same width and height, give the
    pixel vector back; the right-to-left rows of the writer undo the
    reversal of the reader. *)
Theorem readBMP_writeBMP (u : Uninit) (w h : nat) (img : QOI_Image) :
  Z.of_nat w * 3 + 3 < 2147483648 ->
  Z.of_nat h < 2147483648 ->
  Z.of_nat (w * h) < 4294967296 ->
  length (m_RGBBytes img) = (w * h)%nat ->
  forallb valid_pixel (m_RGBBytes img) = true ->
  readBMP_pixels (Z.of_nat w) (Z.of_nat h)
    (drop 54 (writeBMP u (Z.of_nat w) (Z.of_nat h) img)) = m_RGBBytes img.
Proof.
  intros Hw Hh Hsize HP Hvalid.
  rewrite (writeBMP_rows_spec u w h (m_RGBBytes img) Hw Hh Hsize HP img eq_refl).
  rewrite drop_app_length' by reflexivity.
  set (P := m_RGBBytes img) in *.
  set (rows := map (mirror_row P w) (reverse (seq 0 h))).
  assert (length rows = h) as Hrows
    by (unfold rows; now rewrite length_map, length_reverse, length_seq).
  replace (concat (map (fun y => file_row (Z.to_nat (rowPadded (Z.of_nat w)))
                                          (mirror_row P w y)) (reverse (seq 0 h))))
    with (concat (map (file_row (Z.to_nat (rowPadded (Z.of_nat w)))) rows) ++ [])
    by (unfold rows; now rewrite app_nil_r, map_map).
  rewrite <- Hrows at 1.
  rewrite readBMP_pixels_rows;
    [|exact Hw|exact (mirror_rows_valid w h P Hw Hsize HP Hvalid)].
  unfold rows. rewrite (concat_mirror_rows w h P Hsize HP h) by lia.
  rewrite reverse_involutive, take_ge by lia. reflexivity.
Qed.

Lemma readBMP_writeBMP_witness :
  readBMP_pixels 3 2
    (drop 54 (writeBMP zeroed 3 2
                (mkImage [] [px 1 2 3; px 4 5 6; px 7 8 9;
                             px 10 11 12; px 13 14 15; px 16 17 18] []))) =
  [px 1 2 3; px 4 5 6; px 7 8 9; px 10 11 12; px 13 14 15; px 16 17 18].
Proof.
  apply (readBMP_writeBMP zeroed 3 2
           (mkImage [] [px 1 2 3; px 4 5 6; px 7 8 9;
                        px 10 11 12; px 13 14 15; px 16 17 18] []));
    reflexivity.
Defined.

Lemma bmp_row_pixels_push (w : nat) (row : list Z) (acc : list RGBValue) :
  bmp_row_pixels (Z.of_nat w) row acc =
  acc ++ map (fun i : nat =>
                RGBValue_of (row !!! Z.to_nat (Z.of_nat i * 3 + 2))
                            (row !!! Z.to_nat (Z.of_nat i * 3 + 1))
                            (row !!! Z.to_nat (Z.of_nat i * 3)))
             (seq 0 w).
Proof.
  unfold bmp_row_pixels. rewrite Nat2Z.id.
  change (foldl _ acc (seq 0 w)) with
    (foldl (fun (acc : list RGBValue) (i : nat) =>
              acc ++ [RGBValue_of (row !!! Z.to_nat (Z.of_nat i * 3 + 2))
                                  (row !!! Z.to_nat (Z.of_nat i * 3 + 1))
                                  (row !!! Z.to_nat (Z.of_nat i * 3))])
           acc (seq 0 w)).
  apply foldl_push.
Qed.

Lemma length_readBMP_loop (w rp n : nat) :
  forall (stream row : list Z) (acc : list RGBValue),
    length (readBMP_loop (Z.of_nat w) rp n stream row acc) = (length acc + n * w)%nat.
Proof.
  induction n as [|n IH]; intros stream row acc; [simpl; lia|].
  cbn [readBMP_loop]. unfold bmp_read_row. rewrite IH, bmp_row_pixels_push.
  rewrite length_app, length_map, length_seq. lia.
Qed.

(** [readBMP] never checks whether a read succeeded: whatever the file
    holds after the header, even nothing, [m_RGBBytes] ends with exactly
    [m_width * m_height] pixels. *)
Theorem readBMP_pixel_count (w h : nat) (stream : list Z) :
  Z.of_nat w * 3 + 3 < 2147483648 ->
  Z.of_nat h < 2147483648 ->
  length (readBMP_pixels (Z.of_nat w) (Z.of_nat h) stream) = (w * h)%nat.
Proof.
  intros _ _. unfold readBMP_pixels. rewrite Nat2Z.id.
  destruct (0 <? Z.of_nat h); rewrite ?length_reverse, length_readBMP_loop;
    simpl; lia.
Qed.

Lemma readBMP_pixel_count_witness :
  length (readBMP_pixels 3 2 [1; 2; 3; 4; 5; 6; 7; 8; 9; 0; 0; 0; 11; 12; 13; 14]) =
  (3 * 2)%nat.
Proof.
  apply (readBMP_pixel_count 3 2 [1; 2; 3; 4; 5; 6; 7; 8; 9; 0; 0; 0; 11; 12; 13; 14]);
    reflexivity.
Defined.

Lemma readBMP_loop_eof (w rp n : nat) :
  (3 * w <= rp)%nat ->
  forall acc : list RGBValue,
    readBMP_loop (Z.of_nat w) rp n [] (replicate rp 0) acc =
    acc ++ replicate (n * w) (px 0 0 0).
Proof.
  intros Hrp. induction n as [|n IH]; intros acc; [simpl; now rewrite app_nil_r|].
  cbn [readBMP_loop]. unfold bmp_read_row. rewrite take_nil, drop_nil. cbn [app length].
  rewrite drop_0, IH, bmp_row_pixels_push, <- app_assoc. f_equal.
  replace (S n * w)%nat with (w + n * w)%nat by lia. rewrite replicate_add. f_equal.
  rewrite <- (length_replicate w (px 0 0 0)) at 1. apply map_seq_lookup.
  intros i p Hi. apply lookup_replicate in Hi. destruct Hi as [-> Hi].
  rewrite !lookup_total_replicate_2 by lia. reflexivity.
Qed.

(** A file that ends at the pixel data is not an error for [readBMP]:
    the row buffer keeps its zeroes and every pixel is [(0,0,0)]. *)
Theorem readBMP_without_pixel_data (w h : nat) :
  Z.of_nat w * 3 + 3 < 2147483648 ->
  Z.of_nat h < 2147483648 ->
  readBMP_pixels (Z.of_nat w) (Z.of_nat h) [] = replicate (w * h) (px 0 0 0).
Proof.
  intros Hw _. destruct (rowPadded_bounds w Hw) as (Hi32 & Hrp & _).
  unfold readBMP_pixels. rewrite Hi32, Nat2Z.id, readBMP_loop_eof by lia.
  cbn [app]. replace (h * w)%nat with (w * h)%nat by lia.
  destruct (0 <? Z.of_nat h); [apply reverse_replicate|reflexivity].
Qed.

Lemma readBMP_without_pixel_data_witness :
  readBMP_pixels 2 3 [] = replicate (2 * 3) (px 0 0 0).
Proof. apply (readBMP_without_pixel_data 2 3); reflexivity. Defined.

Lemma le32_bytes (v : Z) :
  0 <= v < 4294967296 ->
  le32 [to_u8 v; to_u8 (Z.shiftr v 8); to_u8 (Z.shiftr v 16); to_u8 (Z.shiftr v 24)] = v.
Proof.
  intros Hv. unfold le32, to_u8. rewrite !Z.shiftr_div_pow2 by lia.
  change (2 ^ 8) with 256. change (2 ^ 16) with 65536. change (2 ^ 24) with 16777216.
  zdiv.
Qed.

(** The header [writeBMP] builds is a valid little-endian BMP header
    whatever the host: it starts with ["BM"], gives 54 as the offset of
    the pixel data and 24 bits per pixel, and its size, width and height
    fields read back, least significant byte first, as [fileSize],
    [m_width] and [m_height]. *)
Theorem bmp_header_fields (w h : Z) :
  0 <= w < 4294967296 ->
  0 <= h < 4294967296 ->
  take 2 (bmp_header w h) = [66; 77] /\
  le32 (take 4 (drop 2 (bmp_header w h))) = to_u32 (54 + to_u32 (rowPadded w * h)) /\
  le32 (take 4 (drop 10 (bmp_header w h))) = 54 /\
  le32 (take 4 (drop 18 (bmp_header w h))) = w /\
  le32 (take 4 (drop 22 (bmp_header w h))) = h /\
  take 2 (drop 28 (bmp_header w h)) = [24; 0].
Proof.
  intros Hw Hh. unfold bmp_header.
  set (fileSize := to_u32 (54 + to_u32 (rowPadded w * h))).
  assert (0 <= fileSize < 4294967296) as Hf by (unfold fileSize, to_u32; zdiv).
  cbn [list_insert take drop insert].
  repeat split; try reflexivity; apply le32_bytes; assumption.
Qed.

Lemma bmp_header_fields_witness :
  take 2 (bmp_header 1920 1080) = [66; 77] /\
  le32 (take 4 (drop 2 (bmp_header 1920 1080))) =
    to_u32 (54 + to_u32 (rowPadded 1920 * 1080)) /\
  le32 (take 4 (drop 10 (bmp_header 1920 1080))) = 54 /\
  le32 (take 4 (drop 18 (bmp_header 1920 1080))) = 1920 /\
  le32 (take 4 (drop 22 (bmp_header 1920 1080))) = 1080 /\
  take 2 (drop 28 (bmp_header 1920 1080)) = [24; 0].
Proof. apply (bmp_header_fields 1920 1080); lia. Defined.

Lemma length_concat_rows (w : nat) (rows : list (list RGBValue)) :
  Forall (fun r => length r = w) rows ->
  length (concat rows) = (w * length rows)%nat.
Proof.
  induction rows as [|r rows IH]; intros H; [simpl; lia|].
  apply Forall_cons in H. destruct H as [Hr H].
  cbn [concat length]. rewrite length_app, IH, Hr by exact H. lia.
Qed.

(** Rows of one width are determined by their concatenation. *)
Lemma concat_rows_inj (w : nat) (l1 : list (list RGBValue)) :
  forall l2 : list (list RGBValue),
    Forall (fun r => length r = w) l1 ->
    Forall (fun r => length r = w) l2 ->
    length l1 = length l2 ->
    concat l1 = concat l2 -> l1 = l2.
Proof.
  induction l1 as [|r1 l1 IH]; intros [|r2 l2] H1 H2 Hlen Hc; try discriminate Hlen;
    [reflexivity|].
  apply Forall_cons in H1, H2. destruct H1 as [Hr1 H1], H2 as [Hr2 H2].
  cbn [concat] in Hc. apply app_inj_1 in Hc; [|congruence].
  destruct Hc as [-> Hc]. f_equal. apply IH; auto.
Qed.

(** The other way round: a file whose pixel data are rows of [w] valid
    pixels, zero padded, is read by [readBMP] and written by [writeBMP]
    to the same pixel data, row by row. *)
Theorem writeBMP_readBMP (u : Uninit) (w : nat) (rows : list (list RGBValue))
    (img : QOI_Image) :
  Z.of_nat w * 3 + 3 < 2147483648 ->
  Z.of_nat (length rows) < 2147483648 ->
  Z.of_nat (w * length rows) < 4294967296 ->
  Forall (fun r => length r = w /\ forallb valid_pixel r = true) rows ->
  m_RGBBytes img =
    readBMP_pixels (Z.of_nat w) (Z.of_nat (length rows))
      (concat (map (file_row (Z.to_nat (rowPadded (Z.of_nat w)))) rows)) ->
  drop 54 (writeBMP u (Z.of_nat w) (Z.of_nat (length rows)) img) =
  concat (map (file_row (Z.to_nat (rowPadded (Z.of_nat w)))) rows).
Proof.
  intros Hw Hh Hsize Hrows Himg.
  rewrite <- (app_nil_r (concat _)) in Himg.
  rewrite readBMP_pixels_rows in Himg by assumption.
  assert (Forall (fun r => length r = w) rows) as Hlens
    by (eapply Forall_impl; [exact Hrows|]; intros r [Hr _]; exact Hr).
  set (h := length rows) in *. set (P := m_RGBBytes img) in *.
  assert (length P = (w * h)%nat) as HP
    by (rewrite Himg, length_reverse; now apply length_concat_rows).
  rewrite (writeBMP_rows_spec u w h P Hw Hh Hsize HP img eq_refl).
  rewrite drop_app_length' by reflexivity.
  assert (map (mirror_row P w) (reverse (seq 0 h)) = rows) as Hsame.
  { apply (concat_rows_inj w).
    - apply Forall_forall. intros r Hr.
      apply list_elem_of_In, in_map_iff in Hr. destruct Hr as (y & <- & Hy).
      apply list_elem_of_In, elem_of_reverse, elem_of_seq in Hy.
      apply (length_mirror_row w h P Hsize HP). lia.
    - exact Hlens.
    - now rewrite length_map, length_reverse, length_seq.
    - rewrite (concat_mirror_rows w h P Hsize HP h) by lia.
      rewrite take_ge by lia. rewrite Himg. apply reverse_involutive. }
  rewrite <- map_map, Hsame. reflexivity.
Qed.

Lemma writeBMP_readBMP_witness :
  drop 54 (writeBMP zeroed 2 (Z.of_nat (length [[px 1 2 3; px 4 5 6]; [px 7 8 9; px 10 11 12]]))
             (mkImage [] [px 10 11 12; px 7 8 9; px 4 5 6; px 1 2 3] [])) =
  concat (map (file_row (Z.to_nat (rowPadded 2)))
              [[px 1 2 3; px 4 5 6]; [px 7 8 9; px 10 11 12]]).
Proof.
  apply (writeBMP_readBMP zeroed 2 [[px 1 2 3; px 4 5 6]; [px 7 8 9; px 10 11 12]]
           (mkImage [] [px 10 11 12; px 7 8 9; px 4 5 6; px 1 2 3] [])).
  - reflexivity.
  - reflexivity.
  - reflexivity.
  - repeat constructor.
  - reflexivity.
Defined.
